(** * Elevator system: the car state machine, the nearest-car scheduler
      and the fleet controller of [LLD examples/7.elevator_system.py].

    Floors, ids and distances are Python integers, modelled as [Z].
    The two stop sets of a car are Python sets of integers, modelled as
    [gset Z].  The fleet is a Python list of car objects; a reference to a
    car is modelled as its position in that list, so that a mutation through
    the reference is an update of the list at that position.  What the code
    prints is modelled as a list of events returned next to the new state. *)

From Stdlib Require Import ZArith Lia.
From stdpp Require Import gmap list sorting pretty.

Open Scope Z_scope.

(** ** Enumerations *)

Module Direction.
Inductive t : Set := UP | DOWN | IDLE.
#[global] Instance eq_dec : EqDecision t.
Proof. solve_decision. Defined.
End Direction.

Module ElevatorState.
Inductive t : Set := IDLE | MOVING | DOOR_OPEN | MAINTENANCE.
#[global] Instance eq_dec : EqDecision t.
Proof. solve_decision. Defined.
End ElevatorState.

(** ** Request *)

Module Request.
Record t : Set := Build { floor : Z; direction : Direction.t }.
End Request.

(** ** Printed output

    One constructor per [print] of the core classes; the status display
    only reads the state and is left out. *)

Inductive Event : Set :=
| MovingUp (elevator_id floor : Z)
| MovingDown (elevator_id floor : Z)
| Stopped (elevator_id floor : Z)
| DoorClosed (elevator_id : Z)
| Requested (floor : Z) (direction : Direction.t)
| Assigned (elevator_id : Z)
| NoElevatorAvailable
| Destination (elevator_id floor : Z)
| AllIdle (step : Z).

#[global] Instance Event_eq_dec : EqDecision Event.
Proof. solve_decision. Defined.

(** ** Elevator *)

Record Elevator : Type := mkElevator {
  elevator_id : Z;
  current_floor : Z;
  direction : Direction.t;
  state : ElevatorState.t;
  max_floor : Z;
  up_stops : gset Z;
  down_stops : gset Z;
  capacity : Z;
  current_load : Z
}.

(** [Elevator.__init__] *)
Definition Elevator_init (elevator_id max_floor : Z) : Elevator :=
  {| elevator_id := elevator_id;
     current_floor := 1;
     direction := Direction.IDLE;
     state := ElevatorState.IDLE;
     max_floor := max_floor;
     up_stops := ∅;
     down_stops := ∅;
     capacity := 10;
     current_load := 0 |}.

(** Attribute assignments [self.x = v]. *)
Definition set_current_floor (v : Z) (e : Elevator) : Elevator :=
  mkElevator (elevator_id e) v (direction e) (state e) (max_floor e)
             (up_stops e) (down_stops e) (capacity e) (current_load e).

Definition set_direction (v : Direction.t) (e : Elevator) : Elevator :=
  mkElevator (elevator_id e) (current_floor e) v (state e) (max_floor e)
             (up_stops e) (down_stops e) (capacity e) (current_load e).

Definition set_state (v : ElevatorState.t) (e : Elevator) : Elevator :=
  mkElevator (elevator_id e) (current_floor e) (direction e) v (max_floor e)
             (up_stops e) (down_stops e) (capacity e) (current_load e).

Definition set_up_stops (v : gset Z) (e : Elevator) : Elevator :=
  mkElevator (elevator_id e) (current_floor e) (direction e) (state e)
             (max_floor e) v (down_stops e) (capacity e) (current_load e).

Definition set_down_stops (v : gset Z) (e : Elevator) : Elevator :=
  mkElevator (elevator_id e) (current_floor e) (direction e) (state e)
             (max_floor e) (up_stops e) v (capacity e) (current_load e).

(** Truth value of a Python set: true iff it is not empty. *)
Definition truthy (s : gset Z) : bool := bool_decide (s ≠ ∅).

(** [Elevator.add_stop] *)
Definition add_stop (e : Elevator) (floor : Z) : Elevator :=
  if bool_decide (floor < 1) || bool_decide (floor > max_floor e) then e
  else if bool_decide (floor > current_floor e)
       then set_up_stops ({[floor]} ∪ up_stops e) e
  else if bool_decide (floor < current_floor e)
       then set_down_stops ({[floor]} ∪ down_stops e) e
  else e.

(** [Elevator.should_stop] *)
Definition should_stop (e : Elevator) : bool :=
  if bool_decide (direction e = Direction.UP)
     && bool_decide (current_floor e ∈ up_stops e) then true
  else if bool_decide (direction e = Direction.DOWN)
          && bool_decide (current_floor e ∈ down_stops e) then true
  else false.

(** [Elevator.close_door] *)
Definition close_door (e : Elevator) : Elevator * list Event :=
  if bool_decide (state e = ElevatorState.DOOR_OPEN)
  then (set_state ElevatorState.IDLE e, [DoorClosed (elevator_id e)])
  else (e, []).

(** [Elevator.stop] *)
Definition stop (e : Elevator) : Elevator * list Event :=
  let e1 := set_state ElevatorState.DOOR_OPEN e in
  let e2 := set_up_stops (up_stops e1 ∖ {[current_floor e1]}) e1 in
  let e3 := set_down_stops (down_stops e2 ∖ {[current_floor e2]}) e2 in
  let '(e4, out) := close_door e3 in
  (e4, Stopped (elevator_id e) (current_floor e) :: out).

(** [Elevator.move] *)
Definition move (e : Elevator) : Elevator * list Event :=
  if bool_decide (state e = ElevatorState.MAINTENANCE) then (e, [])
  else if should_stop e then stop e
  else if negb (truthy (up_stops e)) && negb (truthy (down_stops e))
       then (set_state ElevatorState.IDLE (set_direction Direction.IDLE e), [])
  else if truthy (up_stops e)
          && (negb (truthy (down_stops e))
              || bool_decide (direction e = Direction.UP))
       then
         let e1 := set_direction Direction.UP e in
         let e2 := set_state ElevatorState.MOVING e1 in
         let e3 := set_current_floor (current_floor e2 + 1) e2 in
         (e3, [MovingUp (elevator_id e3) (current_floor e3)])
  else if truthy (down_stops e)
       then
         let e1 := set_direction Direction.DOWN e in
         let e2 := set_state ElevatorState.MOVING e1 in
         let e3 := set_current_floor (current_floor e2 - 1) e2 in
         (e3, [MovingDown (elevator_id e3) (current_floor e3)])
  else (e, []).

(** [Elevator.is_available] *)
Definition is_available (e : Elevator) : bool :=
  negb (bool_decide (state e = ElevatorState.MAINTENANCE)).

(** [Elevator.get_distance] *)
Definition get_distance (e : Elevator) (floor : Z) : Z :=
  Z.abs (current_floor e - floor).

(** [Elevator.is_moving_towards] *)
Definition is_moving_towards (e : Elevator) (floor : Z)
    (d : Direction.t) : bool :=
  if bool_decide (direction e = Direction.IDLE) then true
  else if bool_decide (direction e = d) then
    if bool_decide (d = Direction.UP)
    then bool_decide (current_floor e < floor)
    else bool_decide (current_floor e > floor)
  else false.

(** ** Scheduler *)

(** The abstract [ElevatorScheduler]: a strategy choosing a car of the
    fleet, returned as its position in the list together with the car. *)
Class ElevatorScheduler (S : Type) := select_elevator :
  S → list Elevator → Request.t → option (nat * Elevator).

Inductive NearestCarScheduler : Set := mkNearestCarScheduler.

(** [available = [e for e in elevators if e.is_available()]], each car
    kept with its position in [elevators]. *)
Definition available_of (elevators : list Elevator) : list (nat * Elevator) :=
  filter (λ p, is_available p.2) (imap pair elevators).

(** [distance < min_distance], where [None] stands for [float('inf')]. *)
Definition below (distance : Z) (min_distance : option Z) : bool :=
  match min_distance with
  | None => true
  | Some m => bool_decide (distance < m)
  end.

(** The distance the loop compares, after the same-direction bonus. *)
Definition score (e : Elevator) (request : Request.t) : Z :=
  let distance := get_distance e (Request.floor request) in
  if is_moving_towards e (Request.floor request) (Request.direction request)
  then distance - 100
  else distance.

(** One iteration of the loop of [select_elevator]; the accumulator is
    [(best_elevator, min_distance)]. *)
Definition nearest_body (request : Request.t)
    (acc : option (nat * Elevator) * option Z) (p : nat * Elevator)
    : option (nat * Elevator) * option Z :=
  let distance := score p.2 request in
  if below distance acc.2 then (Some p, Some distance) else acc.

(** [NearestCarScheduler.select_elevator] *)
Definition nearest_select (elevators : list Elevator) (request : Request.t)
    : option (nat * Elevator) :=
  let available := available_of elevators in
  match available with
  | [] => None
  | _ => (fold_left (nearest_body request) available (None, None)).1
  end.

#[global] Instance NearestCarScheduler_scheduler :
  ElevatorScheduler NearestCarScheduler := λ _, nearest_select.

(** ** Controller *)

Record ElevatorController : Type := mkController {
  elevators : list Elevator;
  num_floors : Z;
  scheduler : NearestCarScheduler
}.

(** [ElevatorController.__init__]; [range] of a negative number is empty. *)
Definition ElevatorController_init (num_elevators num_floors : Z)
    : ElevatorController :=
  {| elevators :=
       (λ i : nat, Elevator_init (Z.of_nat i + 1) num_floors)
         <$> seq 0 (Z.to_nat num_elevators);
     num_floors := num_floors;
     scheduler := mkNearestCarScheduler |}.

Definition set_elevators (v : list Elevator) (c : ElevatorController)
    : ElevatorController :=
  mkController v (num_floors c) (scheduler c).

(** [ElevatorController.request_elevator] *)
Definition request_elevator (c : ElevatorController) (floor : Z)
    (d : Direction.t) : ElevatorController * list Event :=
  let request := Request.Build floor d in
  match select_elevator (scheduler c) (elevators c) request with
  | Some (i, elevator) =>
      (set_elevators (<[i := add_stop elevator floor]> (elevators c)) c,
       [Requested floor d; Assigned (elevator_id elevator)])
  | None => (c, [Requested floor d; NoElevatorAvailable])
  end.

(** Exceptions the core can raise. *)
Inductive Exception : Set := IndexError.

Inductive result (A : Type) : Type :=
| Ok (a : A)
| Raise (x : Exception).
Arguments Ok {A} a.
Arguments Raise {A} x.

(** Python list indexing [l[i]]: a negative index counts from the end, an
    index outside [-len(l), len(l) - 1] raises [IndexError]. *)
Definition py_index {A : Type} (l : list A) (i : Z) : result (nat * A) :=
  let n := Z.of_nat (length l) in
  let j := if bool_decide (i < 0) then i + n else i in
  if bool_decide (j < 0) || bool_decide (j >= n) then Raise IndexError
  else match l !! Z.to_nat j with
       | Some a => Ok (Z.to_nat j, a)
       | None => Raise IndexError
       end.

(** [ElevatorController.destination_request] *)
Definition destination_request (c : ElevatorController)
    (elevator_id floor : Z) : result (ElevatorController * list Event) :=
  match py_index (elevators c) (elevator_id - 1) with
  | Raise x => Raise x
  | Ok (i, elevator) =>
      Ok (set_elevators (<[i := add_stop elevator floor]> (elevators c)) c,
          [Destination elevator_id floor])
  end.

(** The body of the loop of [ElevatorController.step], for one car. *)
Definition step_elevator (e : Elevator) : Elevator * list Event :=
  if truthy (up_stops e) || truthy (down_stops e) then move e else (e, []).

(** [ElevatorController.step] *)
Definition step (c : ElevatorController) : ElevatorController * list Event :=
  let r := step_elevator <$> elevators c in
  (set_elevators (fst <$> r) c, concat (snd <$> r)).

(** The test [all(e.direction == Direction.IDLE for e in self.elevators)]
    of [run_simulation]. *)
Definition all_idle (c : ElevatorController) : bool :=
  forallb (λ e, bool_decide (direction e = Direction.IDLE)) (elevators c).

(** [ElevatorController.run_simulation]: [n] iterations are left, [i] is
    the loop variable.  The status printed every fifth iteration only
    reads the state and is left out; [AllIdle i] is the message printed
    before the [break]. *)
Fixpoint run_simulation_from (i : Z) (n : nat) (c : ElevatorController)
    : ElevatorController * list Event :=
  match n with
  | O => (c, [])
  | S n' =>
      let '(c1, out1) := step c in
      if all_idle c1 then (c1, out1 ++ [AllIdle i])
      else let '(c2, out2) := run_simulation_from (i + 1) n' c1 in
           (c2, out1 ++ out2)
  end.

Definition run_simulation (c : ElevatorController) (steps : Z)
    : ElevatorController * list Event :=
  run_simulation_from 0 (Z.to_nat steps) c.

(** Modelled from the spec: the source has no [IsSettled] query (its
    driver only tests [all_idle]); the specification defines it as "every
    car's direction is Idle and both stop sets are empty for every car". *)
Definition IsSettled (c : ElevatorController) : bool :=
  forallb (λ e, bool_decide (direction e = Direction.IDLE)
                && negb (truthy (up_stops e))
                && negb (truthy (down_stops e)))
          (elevators c).

(** ** Sequences of calls *)

(** The calls a driver can make on a controller. *)
Inductive Op : Set :=
| HallCall (floor : Z) (d : Direction.t)
| CarCall (elevator_id floor : Z)
| Step.

(** One call.  A call that raises leaves the controller as it was (the
    exception is raised before anything is mutated) and prints nothing. *)
Definition apply_op (c : ElevatorController) (op : Op)
    : ElevatorController * list Event :=
  match op with
  | HallCall f d => request_elevator c f d
  | CarCall id f =>
      match destination_request c id f with
      | Ok r => r
      | Raise _ => (c, [])
      end
  | Step => step c
  end.

Fixpoint run (ops : list Op) (c : ElevatorController)
    : ElevatorController * list Event :=
  match ops with
  | [] => (c, [])
  | op :: ops' =>
      let '(c1, out1) := apply_op c op in
      let '(c2, out2) := run ops' c1 in
      (c2, out1 ++ out2)
  end.

(** The calls on a single car: [add_stop] and [move]. *)
Inductive CarOp : Set :=
| AddStop (floor : Z)
| Move.

Definition apply_car_op (e : Elevator) (op : CarOp) : Elevator * list Event :=
  match op with
  | AddStop f => (add_stop e f, [])
  | Move => move e
  end.

Fixpoint car_run (ops : list CarOp) (e : Elevator) : Elevator * list Event :=
  match ops with
  | [] => (e, [])
  | op :: ops' =>
      let '(e1, out1) := apply_car_op e op in
      let '(e2, out2) := car_run ops' e1 in
      (e2, out1 ++ out2)
  end.

(** ** Predicates on cars and the cars and fleets of the scenarios *)

(** [k] calls of [move] in a row. *)
Definition moves (k : nat) (e : Elevator) : Elevator * list Event :=
  car_run (replicate k Move) e.

(** The car after [stop]: the door has been opened and closed again, the
    floor is in neither stop set. *)
Definition stopped (e : Elevator) : Elevator :=
  mkElevator (elevator_id e) (current_floor e) (direction e)
             ElevatorState.IDLE (max_floor e)
             (up_stops e ∖ {[current_floor e]})
             (down_stops e ∖ {[current_floor e]})
             (capacity e) (current_load e).

(** The car after one floor of travel. *)
Definition moved (d : Direction.t) (delta : Z) (e : Elevator) : Elevator :=
  mkElevator (elevator_id e) (current_floor e + delta) d
             ElevatorState.MOVING (max_floor e)
             (up_stops e) (down_stops e) (capacity e) (current_load e).

(** The five ways through [move]. *)
Inductive move_case (e : Elevator) : Elevator * list Event → Prop :=
| move_maintenance :
    state e = ElevatorState.MAINTENANCE →
    move_case e (e, [])
| move_stop :
    state e ≠ ElevatorState.MAINTENANCE →
    should_stop e = true →
    move_case e (stopped e, [Stopped (elevator_id e) (current_floor e);
                             DoorClosed (elevator_id e)])
| move_idle :
    state e ≠ ElevatorState.MAINTENANCE →
    should_stop e = false →
    up_stops e = ∅ → down_stops e = ∅ →
    move_case e (set_state ElevatorState.IDLE
                   (set_direction Direction.IDLE e), [])
| move_up :
    state e ≠ ElevatorState.MAINTENANCE →
    should_stop e = false →
    up_stops e ≠ ∅ →
    down_stops e = ∅ ∨ direction e = Direction.UP →
    move_case e (moved Direction.UP 1 e,
                 [MovingUp (elevator_id e) (current_floor e + 1)])
| move_down :
    state e ≠ ElevatorState.MAINTENANCE →
    should_stop e = false →
    down_stops e ≠ ∅ →
    up_stops e = ∅ ∨ direction e ≠ Direction.UP →
    move_case e (moved Direction.DOWN (-1) e,
                 [MovingDown (elevator_id e) (current_floor e - 1)]).

(** Where the pending floors lie: a floor of [up_stops] is above the
    car, or is the car's floor while the car goes up; symmetrically for
    [down_stops]. *)
Definition stops_ok (e : Elevator) : Prop :=
  (∀ f, f ∈ up_stops e →
        current_floor e < f
        ∨ (f = current_floor e ∧ direction e = Direction.UP))
  ∧ (∀ f, f ∈ down_stops e →
          f < current_floor e
          ∨ (f = current_floor e ∧ direction e = Direction.DOWN)).

(** The states a car is seen in between two calls. *)
Definition state_ok (e : Elevator) : Prop :=
  (state e = ElevatorState.IDLE ∨ state e = ElevatorState.MOVING)
  ∧ (direction e = Direction.IDLE → state e = ElevatorState.IDLE)
  ∧ (state e = ElevatorState.MOVING →
     up_stops e ≠ ∅ ∨ down_stops e ≠ ∅).

(** The two invariants of a car together. *)
Definition car_ok (e : Elevator) : Prop := stops_ok e ∧ state_ok e.

(** The messages a car prints. *)
Definition printed_by_car (x : Event) : Prop :=
  match x with
  | MovingUp _ _ | MovingDown _ _ | Stopped _ _ | DoorClosed _ => True
  | _ => False
  end.

(** List order of the fleet. *)
Definition by_position (p q : nat * Elevator) : Prop := (p.1 < q.1)%nat.

(** What is seen of a car: floor, state, direction and pending stops. *)
Definition view (e : Elevator)
    : Z * ElevatorState.t * Direction.t * gset Z * gset Z :=
  (current_floor e, state e, direction e, up_stops e, down_stops e).

(** A car that got idle away from floor 1: called to floor 5, it goes
    there, stops, and a further [move] makes it idle; then floors 8 and
    2 are requested. *)
Definition idle_at_5 : Elevator :=
  (car_run ([AddStop 5] ++ replicate 6 Move ++ [AddStop 8; AddStop 2])
           (Elevator_init 1 10)).1.

(** A car on its way up to floor 5, at floor 3, with floor 2 requested
    once it had passed it. *)
Definition going_up_at_3 : Elevator :=
  (car_run [AddStop 5; Move; Move; AddStop 2] (Elevator_init 1 10)).1.

(** The fleet of two cars where the first car is on its way up to floor
    8, at floor 3, and the second car is idle at floor 1; and the same
    with the two cars exchanged. *)
Definition first_car_going_up : ElevatorController :=
  (run [CarCall 1 8; Step; Step] (ElevatorController_init 2 10)).1.

Definition second_car_going_up : ElevatorController :=
  (run [CarCall 2 8; Step; Step] (ElevatorController_init 2 10)).1.

(** One car and ten floors: a hall call at floor 5 going up, then a car
    call for floor 10, then [k] steps. *)
Definition hall_5_car_10 (k : nat) : ElevatorController :=
  (run ([HallCall 5 Direction.UP; CarCall 1 10] ++ replicate k Step)
       (ElevatorController_init 1 10)).1.

(** One car and ten floors: a car call for floor 2. *)
Definition car_call_2 : ElevatorController :=
  (run [CarCall 1 2] (ElevatorController_init 1 10)).1.

(** ** Status display *)

(** The [value] of a member of each enumeration. *)
Definition Direction_value (d : Direction.t) : string :=
  match d with
  | Direction.UP => "UP"
  | Direction.DOWN => "DOWN"
  | Direction.IDLE => "IDLE"
  end.

Definition ElevatorState_value (s : ElevatorState.t) : string :=
  match s with
  | ElevatorState.IDLE => "IDLE"
  | ElevatorState.MOVING => "MOVING"
  | ElevatorState.DOOR_OPEN => "DOOR_OPEN"
  | ElevatorState.MAINTENANCE => "MAINTENANCE"
  end.

(** [Request.__str__] *)
Definition Request_str (r : Request.t) : string :=
  "Floor " +:+ pretty (Request.floor r) +:+ " - "
  +:+ Direction_value (Request.direction r).

(** [sorted(stops)] of [Elevator.__str__], where [stops] lists the floors
    of [up_stops] and then those of [down_stops]; the order in which
    Python lists the elements of a set does not show in the sorted list. *)
Definition sorted_stops (e : Elevator) : list Z :=
  merge_sort Z.le (elements (up_stops e) ++ elements (down_stops e)).

(** [sep.join(l)] *)
Fixpoint join (sep : string) (l : list string) : string :=
  match l with
  | [] => ""
  | [x] => x
  | x :: l' => x +:+ sep +:+ join sep l'
  end.

(** The text Python gives for a list of integers. *)
Definition list_str (l : list Z) : string :=
  "[" +:+ join ", " (pretty <$> l) +:+ "]".

(** [Elevator.__str__] *)
Definition Elevator_str (e : Elevator) : string :=
  "Elevator " +:+ pretty (elevator_id e) +:+ ": Floor "
  +:+ pretty (current_floor e) +:+ ", "
  +:+ Direction_value (direction e) +:+ ", "
  +:+ ElevatorState_value (state e) +:+ ", Stops: "
  +:+ list_str (sorted_stops e).

(** [ElevatorController.display_status]: the texts printed, one per
    call of [print]; the first starts with a line feed. *)
Definition display_status (c : ElevatorController) : list string :=
  String (Ascii.ascii_of_nat 10) "Elevator Status:"
  :: ((λ e, "  " +:+ Elevator_str e) <$> elevators c).

(** ** Measures and further predicates on cars *)

(** [k] iterations of the body of the loop of [step] on one car. *)
Fixpoint ticks (k : nat) (e : Elevator) : Elevator * list Event :=
  match k with
  | O => (e, [])
  | S k' =>
      let '(e1, out1) := step_elevator e in
      let '(e2, out2) := ticks k' e1 in
      (e2, out1 ++ out2)
  end.

(** The floors of a car: the pending floors are floors of the building
    and the car is at floor 1 or at a floor of the building. *)
Definition floors_ok (e : Elevator) : Prop :=
  (∀ f, f ∈ up_stops e ∨ f ∈ down_stops e → 1 ≤ f ≤ max_floor e)
  ∧ 1 ≤ current_floor e
  ∧ (current_floor e ≤ max_floor e ∨ current_floor e = 1).

(** What every car of a controller with [m] floors satisfies. *)
Definition car_inv (m : Z) (e : Elevator) : Prop :=
  car_ok e ∧ floors_ok e ∧ max_floor e = m
  ∧ capacity e = 10 ∧ current_load e = 0.

(** The test of the branch of [move] that goes up. *)
Definition going_up (e : Elevator) : bool :=
  truthy (up_stops e)
  && (negb (truthy (down_stops e))
      || bool_decide (direction e = Direction.UP)).

(** A bound on the floors still to travel: to the top and, when floors
    are pending below too, back through the building; or the same the
    other way round. *)
Definition travel_left (e : Elevator) : Z :=
  if going_up e then
    (max_floor e - current_floor e)
    + (if truthy (down_stops e) then max_floor e - 1 else 0)
  else if truthy (down_stops e) then
    (current_floor e - 1)
    + (if truthy (up_stops e) then max_floor e - 1 else 0)
  else 0.

(** A bound on the steps still to make: one per pending floor and one
    per floor to travel. *)
Definition work_left (e : Elevator) : Z :=
  Z.of_nat (size (up_stops e)) + Z.of_nat (size (down_stops e))
  + travel_left e.

(** A fleet of one car that is out of service, at floor 1 of ten. *)
Definition out_of_service_car : Elevator :=
  set_state ElevatorState.MAINTENANCE (Elevator_init 1 10).

Definition out_of_service_fleet : ElevatorController :=
  mkController [out_of_service_car] 10 mkNearestCarScheduler.

(** Every [Stopped] message is directly followed by the [DoorClosed]
    message of the same car, and there is no other [DoorClosed]. *)
Fixpoint doors_closed (out : list Event) : bool :=
  match out with
  | [] => true
  | Stopped id _ :: out1 =>
      match out1 with
      | DoorClosed id' :: out2 => bool_decide (id = id') && doors_closed out2
      | _ => false
      end
  | DoorClosed _ :: _ => false
  | _ :: out1 => doors_closed out1
  end.

(** ** The car: one call at a time *)

(** Case analysis on every test of the goal. *)
Ltac test_cases :=
  repeat (match goal with
          | |- context [bool_decide ?P] => destruct (bool_decide_reflect P)
          end; simpl).

(** Case analysis on the membership [H] of an element in a literal list;
    what remains are the equations with the elements it can be. *)
Ltac in_literal H :=
  repeat (apply elem_of_cons in H as [H | H]; [try discriminate H |]);
  try (by apply elem_of_nil in H).

Section car_steps.
Implicit Types (e : Elevator) (f : Z).

Lemma add_stop_same e : add_stop e (current_floor e) = e.
Proof.
  unfold add_stop. test_cases; try reflexivity; lia.
Qed.

Lemma add_stop_fields e f :
  elevator_id (add_stop e f) = elevator_id e
  ∧ current_floor (add_stop e f) = current_floor e
  ∧ direction (add_stop e f) = direction e
  ∧ state (add_stop e f) = state e
  ∧ max_floor (add_stop e f) = max_floor e.
Proof.
  unfold add_stop. test_cases; done.
Qed.

Lemma should_stop_true e :
  should_stop e = true ↔
  (direction e = Direction.UP ∧ current_floor e ∈ up_stops e)
  ∨ (direction e = Direction.DOWN ∧ current_floor e ∈ down_stops e).
Proof.
  unfold should_stop. test_cases; split; intros H; try done; tauto.
Qed.

Lemma stop_eq e :
  stop e = (stopped e, [Stopped (elevator_id e) (current_floor e);
                        DoorClosed (elevator_id e)]).
Proof. reflexivity. Qed.

Lemma move_spec e : move_case e (move e).
Proof.
  unfold move.
  destruct (bool_decide_reflect (state e = ElevatorState.MAINTENANCE))
    as [Hm | Hm]; [by constructor |].
  destruct (should_stop e) eqn:Hs; [rewrite stop_eq; by constructor |].
  unfold truthy.
  destruct (bool_decide_reflect (up_stops e ≠ ∅)) as [Hu | Hu];
    destruct (bool_decide_reflect (down_stops e ≠ ∅)) as [Hd | Hd];
    simpl.
  - destruct (bool_decide_reflect (direction e = Direction.UP)) as [Hdir | Hdir].
    + apply move_up; auto.
    + apply move_down; auto.
  - apply move_up; auto. left. by apply dec_stable.
  - apply move_down; auto. left. by apply dec_stable.
  - apply move_idle; auto; by apply dec_stable.
Qed.

(** Case analysis on one call of [move]. *)
Ltac on_move e :=
  destruct (move_spec e) as
    [Hmaint | Hmaint Hstop | Hmaint Hstop Hup0 Hdown0
     | Hmaint Hstop Hup1 Hway | Hmaint Hstop Hdown1 Hway];
  simpl.

Lemma move_elevator_id e : elevator_id (move e).1 = elevator_id e.
Proof. on_move e; reflexivity. Qed.

Lemma move_up_stops_subseteq e : up_stops (move e).1 ⊆ up_stops e.
Proof.
  on_move e; try reflexivity.
  intros f Hf. by apply elem_of_difference in Hf as [? _].
Qed.

(** What it takes for [move] to print a stop at floor [f]. *)
Lemma move_Stopped e id f :
  Stopped id f ∈ (move e).2 →
  f = current_floor e ∧ should_stop e = true.
Proof.
  on_move e; intros Hin; in_literal Hin.
  by inversion Hin.
Qed.

(** A floor leaves [down_stops] only by a stop at that floor. *)
Lemma move_down_stops_served e f :
  f ∈ down_stops e → f ∉ down_stops (move e).1 →
  f = current_floor e ∧ should_stop e = true.
Proof.
  on_move e; intros Hin Hout; try done.
  split; [| done].
  destruct (decide (f = current_floor e)) as [|Hne]; [done |].
  exfalso. apply Hout. apply elem_of_difference. split; [done |].
  by rewrite elem_of_singleton.
Qed.

Lemma stops_ok_init id m : stops_ok (Elevator_init id m).
Proof. split; intros f Hf; simpl in Hf; by apply not_elem_of_empty in Hf. Qed.

Lemma stops_ok_add_stop e f : stops_ok e → stops_ok (add_stop e f).
Proof.
  intros [Hup Hdown]. unfold add_stop. test_cases; try done.
  - split; simpl; [| done]. intros x [->%elem_of_singleton | Hx]%elem_of_union.
    + left. lia.
    + auto.
  - split; simpl; [done |]. intros x [->%elem_of_singleton | Hx]%elem_of_union.
    + left. lia.
    + auto.
Qed.

(** When [should_stop] is false the pending floors are strictly above,
    respectively strictly below, the car. *)
Lemma stops_ok_strict e :
  stops_ok e → should_stop e = false →
  (∀ f, f ∈ up_stops e → current_floor e < f)
  ∧ (∀ f, f ∈ down_stops e → f < current_floor e).
Proof.
  intros [Hup Hdown] Hs.
  assert (¬ should_stop e = true) as Hn by (rewrite Hs; done).
  rewrite should_stop_true in Hn.
  split; intros f Hf.
  - destruct (Hup f Hf) as [? | [-> ?]]; [done |]. exfalso. apply Hn. auto.
  - destruct (Hdown f Hf) as [? | [-> ?]]; [done |]. exfalso. apply Hn. auto.
Qed.

Lemma stops_ok_move e : stops_ok e → stops_ok (move e).1.
Proof.
  intros Hok. on_move e; try done.
  - destruct Hok as [Hup Hdown].
    split; simpl; intros f [Hf Hne]%elem_of_difference;
      rewrite elem_of_singleton in Hne.
    + destruct (Hup f Hf) as [? | [? ?]]; [by left | done].
    + destruct (Hdown f Hf) as [? | [? ?]]; [by left | done].
  - split; simpl; intros f Hf.
    + rewrite Hup0 in Hf. by apply not_elem_of_empty in Hf.
    + rewrite Hdown0 in Hf. by apply not_elem_of_empty in Hf.
  - destruct (stops_ok_strict e Hok Hstop) as [Hup Hdown].
    split; simpl; intros f Hf.
    + specialize (Hup f Hf).
      destruct (decide (f = current_floor e + 1)); [by right | left; lia].
    + specialize (Hdown f Hf). left. lia.
  - destruct (stops_ok_strict e Hok Hstop) as [Hup Hdown].
    split; simpl; intros f Hf.
    + specialize (Hup f Hf). left. lia.
    + specialize (Hdown f Hf).
      destruct (decide (f = current_floor e + -1)); [by right | left; lia].
Qed.

Lemma stops_ok_disjoint e : stops_ok e → up_stops e ∩ down_stops e = ∅.
Proof.
  intros [Hup Hdown]. apply elem_of_equiv_empty_L.
  intros f [Hu Hd]%elem_of_intersection.
  destruct (Hup f Hu) as [? | [? ?]], (Hdown f Hd) as [? | [? ?]];
    try lia; congruence.
Qed.

Lemma state_ok_init id m : state_ok (Elevator_init id m).
Proof. repeat split; simpl; auto; done. Qed.

Lemma add_stop_up_stops e f : up_stops e ⊆ up_stops (add_stop e f).
Proof.
  unfold add_stop. test_cases; try reflexivity.
  apply union_subseteq_r.
Qed.

Lemma add_stop_down_stops e f : down_stops e ⊆ down_stops (add_stop e f).
Proof.
  unfold add_stop. test_cases; try reflexivity.
  apply union_subseteq_r.
Qed.

Lemma subseteq_non_empty (X Y : gset Z) : X ⊆ Y → X ≠ ∅ → Y ≠ ∅.
Proof.
  intros Hsub HX HY. apply HX. apply elem_of_equiv_empty_L.
  intros x Hx. apply Hsub in Hx. rewrite HY in Hx.
  by apply not_elem_of_empty in Hx.
Qed.

Lemma state_ok_add_stop e f : state_ok e → state_ok (add_stop e f).
Proof.
  unfold state_ok.
  destruct (add_stop_fields e f) as (_ & _ & -> & -> & _).
  intros (Hst & Hdir & Hmov). split; [done |]. split; [done |].
  intros Hm. destruct (Hmov Hm) as [Hu | Hd]; [left | right].
  - eapply subseteq_non_empty; [apply add_stop_up_stops | done].
  - eapply subseteq_non_empty; [apply add_stop_down_stops | done].
Qed.

Lemma state_ok_move e : state_ok e → state_ok (move e).1.
Proof.
  intros (Hst & Hdir & Hmov).
  on_move e; try done; repeat split; simpl; auto; try done.
Qed.

(** *** The body of the controller's loop *)

Lemma step_elevator_move e :
  up_stops e ≠ ∅ ∨ down_stops e ≠ ∅ → step_elevator e = move e.
Proof.
  intros H. unfold step_elevator, truthy.
  destruct H as [H | H]; rewrite (bool_decide_eq_true_2 _ H);
    [done | by rewrite orb_true_r].
Qed.

Lemma step_elevator_skip e :
  up_stops e = ∅ → down_stops e = ∅ → step_elevator e = (e, []).
Proof.
  intros Hu Hd. unfold step_elevator, truthy.
  rewrite !bool_decide_eq_false_2; [done | | ]; intros H; by apply H.
Qed.

(** [step_elevator] is [move] or nothing: what [move] keeps, it keeps. *)
Lemma step_elevator_keeps (P : Elevator → Prop) e :
  (P e → P (move e).1) → P e → P (step_elevator e).1.
Proof.
  intros Hmove HP. unfold step_elevator.
  destruct (truthy (up_stops e) || truthy (down_stops e)); auto.
Qed.

(** Under the controller's [step] the idle branch of [move] is never
    taken: a direction other than [IDLE] stays so. *)
Lemma step_elevator_not_idle e :
  direction e ≠ Direction.IDLE →
  direction (step_elevator e).1 ≠ Direction.IDLE.
Proof.
  intros Hdir.
  destruct (decide (up_stops e = ∅)) as [Hu | Hu];
    [destruct (decide (down_stops e = ∅)) as [Hd | Hd] |].
  - by rewrite step_elevator_skip.
  - rewrite step_elevator_move by auto. on_move e; done.
  - rewrite step_elevator_move by auto. on_move e; done.
Qed.

Lemma step_elevator_id e : elevator_id (step_elevator e).1 = elevator_id e.
Proof.
  apply (step_elevator_keeps (λ e', elevator_id e' = elevator_id e));
    [| done].
  intros _. apply move_elevator_id.
Qed.

Lemma step_elevator_prints e : Forall printed_by_car (step_elevator e).2.
Proof.
  unfold step_elevator.
  destruct (truthy (up_stops e) || truthy (down_stops e)); simpl;
    [| constructor].
  on_move e; repeat constructor.
Qed.

Lemma step_elevator_no_message e :
  NoElevatorAvailable ∉ (step_elevator e).2.
Proof.
  intros Hin. pose proof (step_elevator_prints e) as Hall.
  rewrite Forall_forall in Hall. by apply Hall in Hin.
Qed.

End car_steps.

(** ** The scheduler *)

Section scheduler.
Implicit Types (es : list Elevator) (p q : nat * Elevator).

Lemma imap_pair_sorted es (n : nat) :
  StronglySorted by_position (imap (λ i, pair (n + i)%nat) es).
Proof.
  revert n. induction es as [|e es IH]; intros n; simpl; [constructor |].
  constructor.
  - erewrite imap_ext; [apply (IH (S n)) |].
    intros i x _. simpl. f_equal. lia.
  - apply Forall_forall. intros q Hq.
    apply elem_of_lookup_imap_1 in Hq as (i & y & -> & _).
    unfold by_position. simpl. lia.
Qed.

Lemma filter_sorted {A} (R : relation A) (P : A → Prop)
    `{!∀ x, Decision (P x)} (l : list A) :
  StronglySorted R l → StronglySorted R (filter P l).
Proof.
  induction 1 as [|x l Hl IH Hx]; [constructor |].
  rewrite filter_cons. destruct (decide (P x)); [| done].
  constructor; [done |].
  rewrite Forall_forall in Hx. apply Forall_forall.
  intros y [_ Hy]%list_elem_of_filter. auto.
Qed.

Lemma available_sorted es : StronglySorted by_position (available_of es).
Proof. apply filter_sorted. apply (imap_pair_sorted es 0). Qed.

Lemma elem_of_available es i e :
  (i, e) ∈ available_of es ↔ es !! i = Some e ∧ is_available e = true.
Proof.
  unfold available_of. rewrite list_elem_of_filter, elem_of_lookup_imap.
  simpl. rewrite Is_true_true. split.
  - intros [Ha (j & y & [= -> ->] & Hj)]. done.
  - intros [Hi Ha]. split; [done |]. by exists i, e.
Qed.

(** The loop returns the first element of least score. *)
Lemma nearest_fold request (l : list (nat * Elevator)) :
  l ≠ [] →
  ∃ l1 p l2,
    l = l1 ++ p :: l2
    ∧ fold_left (nearest_body request) l (None, None)
      = (Some p, Some (score p.2 request))
    ∧ (∀ q, q ∈ l1 → score p.2 request < score q.2 request)
    ∧ (∀ q, q ∈ l2 → score p.2 request ≤ score q.2 request).
Proof.
  induction l as [|x l IH] using rev_ind; [done |]. intros _.
  rewrite fold_left_app. simpl.
  destruct (decide (l = [])) as [-> | Hne].
  - exists [], x, []. repeat split; try done; intros q Hq;
      by apply elem_of_nil in Hq.
  - destruct (IH Hne) as (l1 & p & l2 & Hl & Hfold & Hbefore & Hafter).
    rewrite Hfold. unfold nearest_body. simpl.
    destruct (bool_decide_reflect (score x.2 request < score p.2 request))
      as [Hlt | Hge].
    + exists l, x, []. repeat split; try done.
      * intros q Hq. rewrite Hl in Hq.
        apply elem_of_app in Hq as [Hq | Hq].
        -- specialize (Hbefore q Hq). lia.
        -- apply elem_of_cons in Hq as [-> | Hq]; [done |].
           specialize (Hafter q Hq). lia.
      * intros q Hq. by apply elem_of_nil in Hq.
    + exists l1, p, (l2 ++ [x]). repeat split; try done.
      * rewrite Hl. by rewrite <- app_assoc.
      * intros q [Hq | Hq]%elem_of_app; [auto |].
        apply list_elem_of_singleton in Hq as ->. lia.
Qed.

Lemma nearest_select_None es request :
  nearest_select es request = None ↔ available_of es = [].
Proof.
  unfold nearest_select. destruct (available_of es) as [|p l] eqn:Hav.
  - done.
  - destruct (nearest_fold request (p :: l)) as (l1 & b & l2 & _ & -> & _);
      done.
Qed.

(** The car that is chosen is an available car of the fleet, no other
    available car has a smaller score, and none with the same score
    comes before it in the fleet. *)
Lemma nearest_select_Some es request i e :
  nearest_select es request = Some (i, e) →
  es !! i = Some e ∧ is_available e = true
  ∧ ∀ j e', es !! j = Some e' → is_available e' = true →
            score e request ≤ score e' request
            ∧ (score e' request = score e request → (i ≤ j)%nat).
Proof.
  unfold nearest_select. intros Hsel.
  pose proof (available_sorted es) as Hsorted.
  pose proof (elem_of_available es) as Hav.
  destruct (available_of es) as [|p0 l0]; [done |].
  destruct (nearest_fold request (p0 :: l0))
    as (l1 & b & l2 & Hl & Hfold & Hbefore & Hafter); [done |].
  rewrite Hfold in Hsel. simpl in Hsel. injection Hsel as ->.
  rewrite Hl in Hav, Hsorted.
  assert (es !! i = Some e ∧ is_available e = true) as [Hi Ha].
  { apply Hav. apply elem_of_app. right. apply elem_of_cons. by left. }
  split; [done |]. split; [done |].
  intros j e' Hj Ha'.
  assert ((j, e') ∈ l1 ++ (i, e) :: l2) as Hin by (by apply Hav).
  apply elem_of_app in Hin as [Hin | Hin].
  - specialize (Hbefore _ Hin). simpl in Hbefore. lia.
  - apply elem_of_cons in Hin as [[= -> ->] | Hin]; [lia |].
    specialize (Hafter _ Hin). simpl in Hafter. split; [done |].
    intros _. apply StronglySorted_app_1_r in Hsorted.
    apply StronglySorted_cons in Hsorted as [Hall _].
    rewrite Forall_forall in Hall. specialize (Hall _ Hin).
    unfold by_position in Hall. simpl in Hall. lia.
Qed.

End scheduler.

(** ** The controller *)

Section controller.
Implicit Types (c : ElevatorController) (e : Elevator) (op : Op).

Lemma py_index_Ok {A} (l : list A) (i : Z) (j : nat) (a : A) :
  py_index l i = Ok (j, a) → l !! j = Some a.
Proof.
  unfold py_index.
  destruct (_ || _); [done |].
  destruct (l !! _) eqn:Hl; [| done].
  by intros [= <- <-].
Qed.

Lemma py_index_Raise {A} (l : list A) (i : Z) :
  i >= Z.of_nat (length l) ∨ i < - Z.of_nat (length l) →
  py_index l i = Raise IndexError.
Proof.
  intros Hi. unfold py_index.
  destruct (bool_decide_reflect (i < 0)) as [Hneg | Hpos].
  - rewrite (bool_decide_eq_true_2 (i + Z.of_nat (length l) < 0)) by lia.
    done.
  - rewrite (bool_decide_eq_true_2 (i >= Z.of_nat (length l))) by lia.
    by rewrite orb_true_r.
Qed.

(** What every call keeps for every car, once [add_stop] and
    [step_elevator] keep it. *)
Section kept.
Variable P : Elevator → Prop.
Hypothesis P_add_stop : ∀ e f, P e → P (add_stop e f).
Hypothesis P_step : ∀ e, P e → P (step_elevator e).1.

Lemma request_elevator_kept c f d :
  Forall P (elevators c) → Forall P (elevators (request_elevator c f d).1).
Proof.
  intros Hall. unfold request_elevator, select_elevator.
  unfold NearestCarScheduler_scheduler.
  destruct (nearest_select _ _) as [[i e] |] eqn:Hsel; simpl; [| done].
  apply nearest_select_Some in Hsel as (Hi & _).
  apply Forall_insert; [done |]. apply P_add_stop.
  by eapply Forall_lookup_1.
Qed.

Lemma step_kept c :
  Forall P (elevators c) → Forall P (elevators (step c).1).
Proof.
  intros Hall. simpl. rewrite <- list_fmap_compose.
  apply Forall_fmap. eapply Forall_impl; [done |]. simpl. auto.
Qed.

Lemma apply_op_kept c op :
  Forall P (elevators c) → Forall P (elevators (apply_op c op).1).
Proof.
  intros Hall. destruct op as [f d | id f |]; simpl.
  - by apply request_elevator_kept.
  - unfold destination_request.
    destruct (py_index _ _) as [[i e] | x] eqn:Hidx; simpl; [| done].
    apply py_index_Ok in Hidx.
    apply Forall_insert; [done |]. apply P_add_stop.
    by eapply Forall_lookup_1.
  - by apply step_kept.
Qed.

Lemma run_kept ops c :
  Forall P (elevators c) → Forall P (elevators (run ops c).1).
Proof.
  revert c. induction ops as [|op ops IH]; intros c Hall; simpl; [done |].
  pose proof (apply_op_kept c op Hall) as H1.
  destruct (apply_op c op) as [c1 out1]. simpl in H1.
  specialize (IH c1 H1). destruct (run ops c1) as [c2 out2]. done.
Qed.

Lemma init_kept n m :
  (∀ id, P (Elevator_init id m)) →
  Forall P (elevators (ElevatorController_init n m)).
Proof.
  intros Hinit. simpl. apply Forall_fmap. apply Forall_forall.
  intros i _. simpl. apply Hinit.
Qed.

End kept.

Lemma reached_car_ok ops n m :
  Forall car_ok (elevators (run ops (ElevatorController_init n m)).1).
Proof.
  apply run_kept.
  - intros e f [? ?]. split;
      [by apply stops_ok_add_stop | by apply state_ok_add_stop].
  - intros e He. apply step_elevator_keeps; [| done].
    intros [? ?]. split; [by apply stops_ok_move | by apply state_ok_move].
  - apply init_kept. intros id. split;
      [apply stops_ok_init | apply state_ok_init].
Qed.

Lemma car_ok_available e : car_ok e → is_available e = true.
Proof.
  intros [_ ([Hst | Hst] & _)]; unfold is_available; rewrite Hst; done.
Qed.

(** *** The fleet itself never changes: same cars, same order *)

Lemma apply_op_ids c op :
  elevator_id <$> elevators (apply_op c op).1 = elevator_id <$> elevators c.
Proof.
  assert (∀ i e f, elevators c !! i = Some e →
            elevator_id <$> <[i := add_stop e f]> (elevators c)
            = elevator_id <$> elevators c) as Hins.
  { intros i e f Hi. rewrite list_fmap_insert.
    destruct (add_stop_fields e f) as (-> & _).
    apply list_insert_id. by rewrite list_lookup_fmap, Hi. }
  destruct op as [f d | id f |]; simpl.
  - unfold request_elevator, select_elevator, NearestCarScheduler_scheduler.
    destruct (nearest_select _ _) as [[i e] |] eqn:Hsel; simpl; [| done].
    apply nearest_select_Some in Hsel as (Hi & _). by apply Hins.
  - unfold destination_request.
    destruct (py_index _ _) as [[i e] | x] eqn:Hidx; simpl; [| done].
    apply py_index_Ok in Hidx. by apply Hins.
  - rewrite <- !list_fmap_compose. apply list_fmap_ext.
    intros i e _. simpl. apply step_elevator_id.
Qed.

Lemma run_ids ops c :
  elevator_id <$> elevators (run ops c).1 = elevator_id <$> elevators c.
Proof.
  revert c. induction ops as [|op ops IH]; intros c; simpl; [done |].
  pose proof (apply_op_ids c op) as H1.
  destruct (apply_op c op) as [c1 out1]. simpl in H1.
  specialize (IH c1). destruct (run ops c1) as [c2 out2]. simpl in *.
  congruence.
Qed.

Lemma reached_id ops n m (j : nat) e :
  elevators (run ops (ElevatorController_init n m)).1 !! j = Some e →
  elevator_id e = Z.of_nat j + 1.
Proof.
  intros Hj.
  assert ((elevator_id <$> elevators (run ops (ElevatorController_init n m)).1)
            !! j = Some (elevator_id e)) as Hid
    by (by rewrite list_lookup_fmap, Hj).
  rewrite run_ids in Hid. unfold ElevatorController_init in Hid.
  cbn [elevators] in Hid. rewrite <- list_fmap_compose in Hid.
  apply list_lookup_fmap_Some in Hid as (i & Hid & Hi).
  apply lookup_seq in Hi as [-> _]. simpl in Hid. done.
Qed.

Lemma reached_length ops n m :
  length (elevators (run ops (ElevatorController_init n m)).1) = Z.to_nat n.
Proof.
  rewrite <- (length_fmap elevator_id), run_ids.
  unfold ElevatorController_init. cbn [elevators].
  by rewrite !length_fmap, length_seq.
Qed.

(** *** A fleet with an available car always gets one assigned *)

Lemma nearest_select_is_Some es request :
  es ≠ [] → Forall (λ e, is_available e = true) es →
  nearest_select es request ≠ None.
Proof.
  intros Hne Hall Hnone. apply nearest_select_None in Hnone.
  destruct es as [|e es]; [done |].
  apply Forall_cons in Hall as [He _].
  assert ((0%nat, e) ∈ available_of (e :: es)) as Hin
    by (by apply elem_of_available).
  rewrite Hnone in Hin. by apply elem_of_nil in Hin.
Qed.

Lemma apply_op_no_message c op :
  elevators c ≠ [] → Forall car_ok (elevators c) →
  NoElevatorAvailable ∉ (apply_op c op).2.
Proof.
  intros Hne Hall. destruct op as [f d | id f |]; simpl.
  - unfold request_elevator, select_elevator, NearestCarScheduler_scheduler.
    destruct (nearest_select _ _) as [[i e] |] eqn:Hsel; simpl.
    + intros Hin. in_literal Hin.
    + exfalso. eapply nearest_select_is_Some; [done | | done].
      eapply Forall_impl; [done |]. apply car_ok_available.
  - destruct (destination_request c id f) as [[c1 out] | x] eqn:Hd; simpl.
    + unfold destination_request in Hd.
      destruct (py_index _ _) as [[i e] | y]; [| done].
      injection Hd as <- <-. intros Hin. in_literal Hin.
    + apply not_elem_of_nil.
  - intros Hin. apply list_elem_of_In, in_concat in Hin as (out & Hout & Hin).
    apply list_elem_of_In in Hout, Hin.
    rewrite <- list_fmap_compose in Hout.
    apply list_elem_of_fmap in Hout as (e & -> & _).
    by apply step_elevator_no_message in Hin.
Qed.

Lemma car_ok_add_stop e f : car_ok e → car_ok (add_stop e f).
Proof.
  intros [? ?]. split;
    [by apply stops_ok_add_stop | by apply state_ok_add_stop].
Qed.

Lemma car_ok_step_elevator e : car_ok e → car_ok (step_elevator e).1.
Proof.
  intros He. apply step_elevator_keeps; [| done].
  intros [? ?]. split; [by apply stops_ok_move | by apply state_ok_move].
Qed.

Lemma apply_op_non_empty c op :
  elevators c ≠ [] → elevators (apply_op c op).1 ≠ [].
Proof.
  intros Hne Hnil. apply Hne.
  apply (fmap_nil_inv elevator_id). rewrite <- (apply_op_ids c op).
  by rewrite Hnil.
Qed.

Lemma run_no_message ops c :
  elevators c ≠ [] → Forall car_ok (elevators c) →
  NoElevatorAvailable ∉ (run ops c).2.
Proof.
  revert c. induction ops as [|op ops IH]; intros c Hne Hall; simpl.
  - apply not_elem_of_nil.
  - pose proof (apply_op_no_message c op Hne Hall) as Hop.
    pose proof (apply_op_non_empty c op Hne) as Hne1.
    pose proof (apply_op_kept car_ok car_ok_add_stop car_ok_step_elevator
                  c op Hall) as Hall1.
    destruct (apply_op c op) as [c1 out1]. simpl in *.
    specialize (IH c1 Hne1 Hall1). destruct (run ops c1) as [c2 out2].
    simpl in *. intros [H | H]%elem_of_app; done.
Qed.

Lemma reached_non_empty ops n m :
  0 < n → elevators (run ops (ElevatorController_init n m)).1 ≠ [].
Proof.
  intros Hn Hnil. pose proof (reached_length ops n m) as Hlen.
  rewrite Hnil in Hlen. simpl in Hlen. lia.
Qed.

(** *** Steps in a row *)

Lemma run_cons op ops c :
  (run (op :: ops) c).1 = (run ops (apply_op c op).1).1.
Proof.
  simpl. destruct (apply_op c op) as [c1 out1]. simpl.
  by destruct (run ops c1).
Qed.

Lemma step_lookup c (i : nat) :
  elevators (step c).1 !! i
  = (λ e, (step_elevator e).1) <$> elevators c !! i.
Proof.
  simpl. rewrite <- list_fmap_compose. by rewrite list_lookup_fmap.
Qed.

Lemma step_prints c : Forall printed_by_car (step c).2.
Proof.
  simpl. apply Forall_concat. rewrite <- list_fmap_compose.
  apply Forall_fmap, Forall_forall. intros e _. simpl.
  apply step_elevator_prints.
Qed.

(** A car whose direction is not [IDLE] keeps the controller from being
    settled, and from passing the test of [run_simulation]. *)
Lemma not_idle_not_settled c (i : nat) e :
  elevators c !! i = Some e → direction e ≠ Direction.IDLE →
  IsSettled c = false ∧ all_idle c = false.
Proof.
  intros Hi Hdir. apply list_elem_of_lookup_2, list_elem_of_In in Hi.
  split; apply not_true_is_false; intros Hall;
    unfold IsSettled, all_idle in Hall;
    rewrite forallb_forall in Hall; specialize (Hall e Hi);
    rewrite (bool_decide_eq_false_2 _ Hdir) in Hall; done.
Qed.

(** Once a car has a direction, no number of steps makes it idle. *)
Lemma steps_not_idle (k : nat) c (i : nat) e :
  elevators c !! i = Some e → direction e ≠ Direction.IDLE →
  ∃ e', elevators (run (replicate k Step) c).1 !! i = Some e'
        ∧ direction e' ≠ Direction.IDLE.
Proof.
  revert c e. induction k as [|k IH]; intros c e Hi Hdir.
  - by exists e.
  - cbn [replicate]. rewrite run_cons. cbn [apply_op].
    apply (IH _ (step_elevator e).1).
    + by rewrite step_lookup, Hi.
    + by apply step_elevator_not_idle.
Qed.

(** [run_simulation] does not stop early, and does not print that all
    cars are idle, when some car will have a direction after its next
    step. *)
Lemma run_simulation_no_idle (n : nat) (i0 : Z) c (i : nat) e x :
  elevators c !! i = Some e →
  direction (step_elevator e).1 ≠ Direction.IDLE →
  AllIdle x ∉ (run_simulation_from i0 n c).2.
Proof.
  revert i0 c e. induction n as [|n IH]; intros i0 c e Hi Hdir;
    cbn [run_simulation_from].
  - apply not_elem_of_nil.
  - pose proof (step_lookup c i) as Hl. pose proof (step_prints c) as Hp.
    destruct (step c) as [c1 out1]. cbn [fst snd] in Hl, Hp.
    rewrite Hi in Hl. simpl in Hl.
    destruct (not_idle_not_settled c1 i _ Hl Hdir) as [_ ->].
    specialize (IH (i0 + 1) c1 _ Hl (step_elevator_not_idle _ Hdir)).
    destruct (run_simulation_from (i0 + 1) n c1) as [c2 out2]. simpl in *.
    intros [Hin | Hin]%elem_of_app; [| done].
    rewrite Forall_forall in Hp. by apply Hp in Hin.
Qed.

End controller.

(** ** Sequences of calls on one car *)

Section car_runs.
Implicit Types (e : Elevator) (f F : Z).

Lemma car_run_stops_ok ops e : stops_ok e → stops_ok (car_run ops e).1.
Proof.
  revert e. induction ops as [|op ops IH]; intros e Hok; simpl; [done |].
  assert (stops_ok (apply_car_op e op).1) as H1.
  { destruct op; simpl; [by apply stops_ok_add_stop | by apply stops_ok_move]. }
  destruct (apply_car_op e op) as [e1 out1]. simpl in H1.
  specialize (IH e1 H1). by destruct (car_run ops e1).
Qed.

Lemma moves_S k e :
  moves (S k) e
  = ((moves k (move e).1).1, (move e).2 ++ (moves k (move e).1).2).
Proof.
  unfold moves. simpl. destruct (move e) as [e1 out1]. simpl.
  by destruct (car_run _ e1).
Qed.

(** A fresh car without stops stays as it is, whatever the number of
    calls of [move]. *)
Lemma moves_fresh k id m :
  moves k (Elevator_init id m) = (Elevator_init id m, []).
Proof.
  induction k as [|k IH]; [done |].
  rewrite moves_S.
  assert (move (Elevator_init id m) = (Elevator_init id m, [])) as ->
    by reflexivity.
  simpl. by rewrite IH.
Qed.

(** While the car keeps going up, a floor that is only in [down_stops]
    stays there and no stop at it is printed. *)
Lemma pending_while_up (n : nat) e id F :
  F ∈ down_stops e → F ∉ up_stops e →
  (∀ k, (k < n)%nat → direction (moves k e).1 = Direction.UP) →
  F ∈ down_stops (moves n e).1
  ∧ (F ∉ up_stops (moves n e).1)
  ∧ (Stopped id F ∉ (moves n e).2).
Proof.
  revert e. induction n as [|n IH]; intros e Hdown Hup Hdir.
  - repeat split; try done. apply not_elem_of_nil.
  - assert (direction e = Direction.UP) as He by (apply (Hdir 0%nat); lia).
    assert (¬ (F = current_floor e ∧ should_stop e = true)) as Hnostop.
    { intros [-> Hs]. apply should_stop_true in Hs as [[_ ?] | [? _]];
        [done | congruence]. }
    assert (F ∈ down_stops (move e).1) as Hdown1.
    { destruct (decide (F ∈ down_stops (move e).1)) as [| Hout]; [done |].
      exfalso. apply Hnostop. by apply move_down_stops_served. }
    assert (F ∉ up_stops (move e).1) as Hup1.
    { intros Hin. apply Hup. by apply move_up_stops_subseteq. }
    destruct (IH (move e).1 Hdown1 Hup1) as (H1 & H2 & H3).
    { intros k Hk. specialize (Hdir (S k)). rewrite moves_S in Hdir.
      apply Hdir. lia. }
    rewrite moves_S. simpl. repeat split; try done.
    intros [Hin | Hin]%elem_of_app; [| done].
    apply Hnostop. by eapply move_Stopped.
Qed.

(** A stop at a floor that is not in [up_stops] is printed by a call of
    [move] that finds the car at that floor with direction [DOWN]. *)
Lemma served_going_down (n : nat) e id F :
  F ∉ up_stops e →
  Stopped id F ∈ (moves n e).2 →
  ∃ k, (k < n)%nat
       ∧ direction (moves k e).1 = Direction.DOWN
       ∧ current_floor (moves k e).1 = F
       ∧ Stopped id F ∉ (moves k e).2.
Proof.
  revert e. induction n as [|n IH]; intros e Hup Hin.
  - by apply elem_of_nil in Hin.
  - rewrite moves_S in Hin. simpl in Hin.
    destruct (decide (Stopped id F ∈ (move e).2)) as [Hnow | Hlater].
    + apply move_Stopped in Hnow as [-> Hs].
      apply should_stop_true in Hs as [[_ ?] | [? _]]; [done |].
      exists 0%nat. repeat split; try done; [lia | apply not_elem_of_nil].
    + apply elem_of_app in Hin as [Hin | Hin]; [done |].
      destruct (IH (move e).1) as (k & Hk & Hdir & Hfl & Hnot); [| done |].
      { intros Hx. apply Hup. by apply move_up_stops_subseteq. }
      exists (S k). rewrite moves_S. simpl. repeat split; try done; [lia |].
      intros [H | H]%elem_of_app; done.
Qed.

End car_runs.

(** ** The properties of the specification *)

(** C4: in every state a car reaches by calls of [add_stop] and [move],
    and for every car of every state a controller reaches by hall calls,
    car calls and steps, [up_stops] and [down_stops] are disjoint. *)
Theorem C4_stop_sets_disjoint :
  (∀ (ops : list CarOp) (id m : Z),
     let e := (car_run ops (Elevator_init id m)).1 in
     up_stops e ∩ down_stops e = ∅)
  ∧ (∀ (ops : list Op) (n m : Z),
       Forall (λ e, up_stops e ∩ down_stops e = ∅)
              (elevators (run ops (ElevatorController_init n m)).1)).
Proof.
  split.
  - intros ops id m e. apply stops_ok_disjoint.
    apply car_run_stops_ok, stops_ok_init.
  - intros ops n m. eapply Forall_impl; [apply reached_car_ok |].
    intros e [Hok _]. by apply stops_ok_disjoint.
Qed.

(** C5 as stated fails: a fresh car at floor 1 that is asked to stop at
    floor 1 never prints a stop at that floor, however often it moves. *)
Lemma C5_counterexample :
  ¬ (∀ e : Elevator,
       state e = ElevatorState.IDLE ∨ state e = ElevatorState.DOOR_OPEN →
       ∃ k : nat,
         Stopped (elevator_id e) (current_floor e)
         ∈ (moves k (add_stop e (current_floor e))).2).
Proof.
  intros H. destruct (H (Elevator_init 1 10)) as [k Hk]; [by left |].
  rewrite add_stop_same, moves_fresh in Hk. by apply elem_of_nil in Hk.
Qed.

(** C5, amended: [add_stop] with the floor the car is at changes nothing
    of the car, in any state: no stop is queued, so no door cycle
    follows from it. *)
Theorem C5_add_stop_current_floor (e : Elevator) :
  add_stop e (current_floor e) = e
  ∧ move (add_stop e (current_floor e)) = move e.
Proof. by rewrite add_stop_same. Qed.

(** C6 as stated fails: the car that got idle at floor 5 and has floor 8
    and floor 2 pending moves down, to floor 4. *)
Lemma C6_counterexample :
  ¬ (∀ e : Elevator,
       direction e = Direction.IDLE →
       up_stops e ≠ ∅ → down_stops e ≠ ∅ →
       direction (move e).1 = Direction.UP
       ∧ current_floor (move e).1 = current_floor e + 1).
Proof.
  intros H. destruct (H idle_at_5) as [Hdir _]; [compute_done .. |].
  vm_compute in Hdir. discriminate Hdir.
Qed.

(** C6, amended: a car in service whose direction is [IDLE] and whose
    two stop sets are both non-empty gets direction [DOWN] by the next
    [move] and goes one floor down. *)
Theorem C6_idle_prefers_down (e : Elevator) :
  state e ≠ ElevatorState.MAINTENANCE →
  direction e = Direction.IDLE →
  up_stops e ≠ ∅ → down_stops e ≠ ∅ →
  direction (move e).1 = Direction.DOWN
  ∧ state (move e).1 = ElevatorState.MOVING
  ∧ current_floor (move e).1 = current_floor e - 1
  ∧ (move e).2 = [MovingDown (elevator_id e) (current_floor e - 1)].
Proof.
  intros Hst Hdir Hup Hdown.
  assert (should_stop e = false) as Hs.
  { destruct (should_stop e) eqn:Hs; [| done].
    apply should_stop_true in Hs as [[? _] | [? _]]; congruence. }
  destruct (move_spec e) as [| | | ? ? ? [? | ?] |]; try congruence.
  simpl. repeat split; first [done | lia].
Qed.

Lemma C6_idle_prefers_down_witness :
  direction (move idle_at_5).1 = Direction.DOWN
  ∧ state (move idle_at_5).1 = ElevatorState.MOVING
  ∧ current_floor (move idle_at_5).1 = current_floor idle_at_5 - 1
  ∧ (move idle_at_5).2
    = [MovingDown (elevator_id idle_at_5) (current_floor idle_at_5 - 1)].
Proof. apply (C6_idle_prefers_down idle_at_5); compute_done. Defined.

(** C7: for a car with direction [UP] and a floor [F] that is in
    [down_stops] and not in [up_stops]: as long as the direction is [UP]
    before each call of [move], [F] stays pending and no stop at [F] is
    printed; and if a stop at [F] is printed, then the car had direction
    [DOWN], at an earlier moment when no stop at [F] had been printed. *)
Theorem C7_no_stop_while_ascending (e : Elevator) (F : Z) (n : nat) :
  direction e = Direction.UP →
  F ∈ down_stops e → F ∉ up_stops e →
  ((∀ k, (k < n)%nat → direction (moves k e).1 = Direction.UP) →
   F ∈ down_stops (moves n e).1
   ∧ Stopped (elevator_id e) F ∉ (moves n e).2)
  ∧ (Stopped (elevator_id e) F ∈ (moves n e).2 →
     ∃ k, (0 < k < n)%nat
          ∧ direction (moves k e).1 = Direction.DOWN
          ∧ Stopped (elevator_id e) F ∉ (moves k e).2).
Proof.
  intros Hdir Hdown Hup. split.
  - intros Hk.
    destruct (pending_while_up n e (elevator_id e) F) as (? & _ & ?); done.
  - intros Hin.
    destruct (served_going_down n e (elevator_id e) F Hup Hin)
      as (k & Hk & Hd & _ & Hnot).
    exists k. repeat split; try done.
    destruct k; [| lia]. simpl in Hd. congruence.
Qed.

Lemma C7_no_stop_while_ascending_witness :
  ((∀ k, (k < 8)%nat →
         direction (moves k going_up_at_3).1 = Direction.UP) →
   2 ∈ down_stops (moves 8 going_up_at_3).1
   ∧ Stopped (elevator_id going_up_at_3) 2 ∉ (moves 8 going_up_at_3).2)
  ∧ (Stopped (elevator_id going_up_at_3) 2 ∈ (moves 8 going_up_at_3).2 →
     ∃ k, (0 < k < 8)%nat
          ∧ direction (moves k going_up_at_3).1 = Direction.DOWN
          ∧ Stopped (elevator_id going_up_at_3) 2
            ∉ (moves k going_up_at_3).2).
Proof. apply (C7_no_stop_while_ascending going_up_at_3 2 8); compute_done. Defined.

(** C3 as stated fails: after a hall call at floor 5 on a fresh fleet of
    one car the car has direction [IDLE] and a pending stop. *)
Lemma C3_counterexample :
  ¬ (∀ (ops : list Op) (n m : Z) (i : nat) (e : Elevator),
       elevators (run ops (ElevatorController_init n m)).1 !! i = Some e →
       (direction e = Direction.IDLE ↔
        up_stops e = ∅ ∧ down_stops e = ∅
        ∧ (state e = ElevatorState.IDLE
           ∨ state e = ElevatorState.MAINTENANCE))).
Proof.
  intros H.
  destruct (H [HallCall 5 Direction.UP] 1 10 0%nat
              (add_stop (Elevator_init 1 10) 5)) as [Hidle _];
    [compute_done |].
  destruct Hidle as [Hup _]; [done |].
  vm_compute in Hup. discriminate Hup.
Qed.

(** C3, amended: for every car of every state a controller reaches by
    hall calls, car calls and steps, if the direction is [IDLE], or if
    both stop sets are empty, then the state is [IDLE]. *)
Theorem C3_idle_state (ops : list Op) (n m : Z) (i : nat) (e : Elevator) :
  elevators (run ops (ElevatorController_init n m)).1 !! i = Some e →
  direction e = Direction.IDLE ∨ (up_stops e = ∅ ∧ down_stops e = ∅) →
  state e = ElevatorState.IDLE.
Proof.
  intros Hi Hcase.
  pose proof (Forall_lookup_1 _ _ _ _ (reached_car_ok ops n m) Hi)
    as [_ (Hst & Hdir & Hmov)].
  destruct Hcase as [Hidle | [Hup Hdown]]; [auto |].
  destruct Hst as [? | Hm]; [done |].
  destruct (Hmov Hm); done.
Qed.

Lemma C3_idle_state_witness :
  state (add_stop (Elevator_init 1 10) 5) = ElevatorState.IDLE.
Proof.
  apply (C3_idle_state [HallCall 5 Direction.UP] 1 10 0%nat);
    [compute_done | left; compute_done].
Defined.

(** C10: in every state a controller reaches by hall calls, car calls
    and steps no car is in [MAINTENANCE], so every car is available; and
    when the fleet is not empty the scheduler returns a car for every
    request and the message of the branch without a car is never
    printed. *)
Theorem C10_never_out_of_service (ops : list Op) (n m : Z) :
  let c := (run ops (ElevatorController_init n m)).1 in
  Forall (λ e, state e ≠ ElevatorState.MAINTENANCE
               ∧ is_available e = true) (elevators c)
  ∧ (0 < n →
     (∀ request,
        select_elevator (scheduler c) (elevators c) request ≠ None)
     ∧ NoElevatorAvailable
       ∉ (run ops (ElevatorController_init n m)).2).
Proof.
  intros c. split.
  - eapply Forall_impl; [apply reached_car_ok |].
    intros e He. split; [| by apply car_ok_available].
    destruct He as [_ ([Hst | Hst] & _)]; rewrite Hst; done.
  - intros Hn. split.
    + intros request. apply nearest_select_is_Some.
      * by apply reached_non_empty.
      * eapply Forall_impl; [apply reached_car_ok |].
        apply car_ok_available.
    + apply run_no_message.
      * by apply (reached_non_empty []).
      * apply (reached_car_ok []).
Qed.

Lemma C10_never_out_of_service_witness :
  let ops := [HallCall 7 Direction.UP; CarCall 1 10; Step; Step;
              HallCall 3 Direction.DOWN; Step] in
  let c := (run ops (ElevatorController_init 3 10)).1 in
  Forall (λ e, state e ≠ ElevatorState.MAINTENANCE
               ∧ is_available e = true) (elevators c)
  ∧ (0 < 3 →
     (∀ request,
        select_elevator (scheduler c) (elevators c) request ≠ None)
     ∧ NoElevatorAvailable
       ∉ (run ops (ElevatorController_init 3 10)).2).
Proof. apply C10_never_out_of_service. Defined.

(** C8: the scheduler returns none only when no car is available;
    otherwise it returns an available car of the fleet whose score, the
    distance to the requested floor less 100 when the car moves towards
    the request, is the least, and whose id is the lowest among the
    available cars of that score.  With the first car going up at floor
    3 towards floor 8 and the second idle at floor 1, a hall call at
    floor 4 going up is assigned to the first car, and to the second car
    when the roles of the two cars are exchanged. *)
Theorem C8_nearest_car :
  (∀ (ops : list Op) (n m : Z) (request : Request.t),
     let c := (run ops (ElevatorController_init n m)).1 in
     match select_elevator (scheduler c) (elevators c) request with
     | None => Forall (λ e, is_available e = false) (elevators c)
     | Some (i, e) =>
         elevators c !! i = Some e ∧ is_available e = true
         ∧ ∀ (j : nat) e',
             elevators c !! j = Some e' → is_available e' = true →
             score e request ≤ score e' request
             ∧ (score e' request = score e request →
                elevator_id e ≤ elevator_id e')
     end)
  ∧ (∀ e request,
       score e request
       = get_distance e (Request.floor request)
         - (if is_moving_towards e (Request.floor request)
                 (Request.direction request)
            then 100 else 0))
  ∧ (∃ A B,
       elevators first_car_going_up = [A; B]
       ∧ (state A, direction A, current_floor A, up_stops A)
         = (ElevatorState.MOVING, Direction.UP, 3, {[8]})
       ∧ (state B, direction B, current_floor B)
         = (ElevatorState.IDLE, Direction.IDLE, 1)
       ∧ score A (Request.Build 4 Direction.UP) = -99
       ∧ score B (Request.Build 4 Direction.UP) = -97
       ∧ select_elevator (scheduler first_car_going_up)
           (elevators first_car_going_up) (Request.Build 4 Direction.UP)
         = Some (0%nat, A)
       ∧ request_elevator first_car_going_up 4 Direction.UP
         = (set_elevators [add_stop A 4; B] first_car_going_up,
            [Requested 4 Direction.UP; Assigned 1]))
  ∧ (∃ B A,
       elevators second_car_going_up = [B; A]
       ∧ select_elevator (scheduler second_car_going_up)
           (elevators second_car_going_up) (Request.Build 4 Direction.UP)
         = Some (1%nat, A)
       ∧ request_elevator second_car_going_up 4 Direction.UP
         = (set_elevators [B; add_stop A 4] second_car_going_up,
            [Requested 4 Direction.UP; Assigned 2])).
Proof.
  split; [| split; [| split]].
  - intros ops n m request c.
    unfold select_elevator, NearestCarScheduler_scheduler.
    destruct (nearest_select (elevators c) request) as [[i e] |] eqn:Hsel.
    + apply nearest_select_Some in Hsel as (Hi & Ha & Hmin).
      split; [done |]. split; [done |].
      intros j e' Hj Ha'. destruct (Hmin j e' Hj Ha') as [Hle Htie].
      split; [done |]. intros Heq. specialize (Htie Heq).
      rewrite (reached_id ops n m i e Hi), (reached_id ops n m j e' Hj).
      lia.
    + apply nearest_select_None in Hsel.
      apply Forall_lookup. intros i e Hi.
      destruct (is_available e) eqn:Ha; [| done].
      assert ((i, e) ∈ available_of (elevators c)) as Hin
        by (by apply elem_of_available).
      rewrite Hsel in Hin. by apply elem_of_nil in Hin.
  - intros e request. unfold score.
    destruct (is_moving_towards _ _ _); lia.
  - eexists _, _. split; [vm_compute; reflexivity |].
    repeat split; compute_done.
  - eexists _, _. split; [vm_compute; reflexivity |].
    repeat split; compute_done.
Qed.

(** C9 as stated fails: in a fresh fleet of two cars no car has id 0,
    and yet the car call for car 0 and floor 5 does not raise. *)
Lemma C9_counterexample :
  ¬ (∀ (n m id f : Z),
       (∀ e, e ∈ elevators (ElevatorController_init n m) →
             elevator_id e ≠ id) →
       ∃ x, destination_request (ElevatorController_init n m) id f
            = Raise x).
Proof.
  intros H. destruct (H 2 10 0 5) as [x Hx].
  - intros e He. vm_compute in He. in_literal He; subst e; done.
  - vm_compute in Hx. discriminate Hx.
Qed.

(** C9, amended: a car call whose car id is greater than the number of
    cars, or is at most its opposite, raises [IndexError]; nothing is
    printed and the controller is left as it was. *)
Theorem C9_unknown_car (c : ElevatorController) (id f : Z) :
  id > Z.of_nat (length (elevators c))
  ∨ id ≤ - Z.of_nat (length (elevators c)) →
  destination_request c id f = Raise IndexError
  ∧ apply_op c (CarCall id f) = (c, []).
Proof.
  intros Hid.
  assert (destination_request c id f = Raise IndexError) as Hd.
  { unfold destination_request. rewrite py_index_Raise; [done | lia]. }
  split; [done |]. simpl. by rewrite Hd.
Qed.

Lemma C9_unknown_car_witness :
  destination_request (ElevatorController_init 2 10) 3 5 = Raise IndexError
  ∧ apply_op (ElevatorController_init 2 10) (CarCall 3 5)
    = (ElevatorController_init 2 10, []).
Proof.
  apply (C9_unknown_car (ElevatorController_init 2 10) 3 5).
  left. compute_done.
Defined.

(** C1 as stated fails: after 4 steps the car is at floor 5 and its
    state is [MOVING], not [DOOR_OPEN]. *)
Lemma C1_counterexample :
  ¬ ((∃ e, elevators (hall_5_car_10 4) !! 0%nat = Some e
           ∧ current_floor e = 5 ∧ state e = ElevatorState.DOOR_OPEN)
     ∧ (∃ e, elevators (hall_5_car_10 5) !! 0%nat = Some e
             ∧ state e = ElevatorState.MOVING
             ∧ direction e = Direction.UP)
     ∧ (∃ e, elevators (hall_5_car_10 9) !! 0%nat = Some e
             ∧ current_floor e = 10
             ∧ state e = ElevatorState.DOOR_OPEN)
     ∧ IsSettled (hall_5_car_10 10) = true).
Proof.
  intros [(e & He & _ & Hst) _].
  vm_compute in He. injection He as <-. discriminate Hst.
Qed.

(** C1, amended: after 4 steps the car is at floor 5, still [MOVING],
    with floor 5 pending; the 5th step is the stop at floor 5, door
    opened and closed within it, which leaves the car at floor 5 in
    state [IDLE] with direction [UP]; the 6th step moves it on to floor
    6; after 9 steps it is at floor 9 and after 10 steps at floor 10;
    the 11th step is the stop at floor 10, after which both stop sets
    are empty; and after no number of steps is the car seen in state
    [DOOR_OPEN]. *)
Theorem C1_scenario :
  view <$> elevators (hall_5_car_10 4) !! 0%nat
  = Some (5, ElevatorState.MOVING, Direction.UP, {[5; 10]}, ∅)
  ∧ (step (hall_5_car_10 4)).2 = [Stopped 1 5; DoorClosed 1]
  ∧ view <$> elevators (hall_5_car_10 5) !! 0%nat
    = Some (5, ElevatorState.IDLE, Direction.UP, {[10]}, ∅)
  ∧ (step (hall_5_car_10 5)).2 = [MovingUp 1 6]
  ∧ view <$> elevators (hall_5_car_10 6) !! 0%nat
    = Some (6, ElevatorState.MOVING, Direction.UP, {[10]}, ∅)
  ∧ view <$> elevators (hall_5_car_10 9) !! 0%nat
    = Some (9, ElevatorState.MOVING, Direction.UP, {[10]}, ∅)
  ∧ view <$> elevators (hall_5_car_10 10) !! 0%nat
    = Some (10, ElevatorState.MOVING, Direction.UP, {[10]}, ∅)
  ∧ (step (hall_5_car_10 10)).2 = [Stopped 1 10; DoorClosed 1]
  ∧ view <$> elevators (hall_5_car_10 11) !! 0%nat
    = Some (10, ElevatorState.IDLE, Direction.UP, ∅, ∅)
  ∧ ∀ k : nat,
      Forall (λ e, state e ≠ ElevatorState.DOOR_OPEN)
             (elevators (hall_5_car_10 k)).
Proof.
  repeat split; try compute_done.
  intros k. eapply Forall_impl; [apply reached_car_ok |].
  intros e [_ ([Hst | Hst] & _)]; rewrite Hst; done.
Qed.

(** C2 fails on the code: after the car call for floor 2 the controller
    is not settled after any number of steps, and [run_simulation] never
    prints that all cars are idle, although both stop sets are empty
    from the second step on. *)
Theorem C2_never_settled :
  (∀ k : nat, IsSettled (run (replicate k Step) car_call_2).1 = false)
  ∧ (∀ (steps x : Z), AllIdle x ∉ (run_simulation car_call_2 steps).2)
  ∧ view <$> elevators (run (replicate 2 Step) car_call_2).1 !! 0%nat
    = Some (2, ElevatorState.IDLE, Direction.UP, ∅, ∅).
Proof.
  split; [| split].
  - intros [|k].
    + compute_done.
    + cbn [replicate]. rewrite run_cons. cbn [apply_op].
      destruct (steps_not_idle k (step car_call_2).1 0%nat
                  (moved Direction.UP 1 (add_stop (Elevator_init 1 10) 2)))
        as (e' & He' & Hdir); [compute_done | done |].
      by destruct (not_idle_not_settled _ _ _ He' Hdir).
  - intros steps x. unfold run_simulation.
    apply (run_simulation_no_idle _ _ _ 0%nat
             (add_stop (Elevator_init 1 10) 2)); [compute_done |].
    vm_compute. discriminate.
  - compute_done.
Qed.

(** ** Further properties of the code *)

(** Equality of two sets of floors built with unions. *)
Ltac same_floors :=
  apply set_eq; intros ?; rewrite ?elem_of_union, ?elem_of_singleton;
  tauto.

Section more_car.
Implicit Types (e : Elevator) (f g : Z).

Lemma add_stop_out_of_range e f :
  f < 1 ∨ f > max_floor e → add_stop e f = e.
Proof. intros Hf. unfold add_stop. test_cases; try done; lia. Qed.

Lemma add_stop_here e f : f = current_floor e → add_stop e f = e.
Proof. intros ->. apply add_stop_same. Qed.

Lemma add_stop_up e f :
  1 ≤ f ≤ max_floor e → current_floor e < f →
  add_stop e f = set_up_stops ({[f]} ∪ up_stops e) e.
Proof. intros Hf Hlt. unfold add_stop. test_cases; try done; lia. Qed.

Lemma add_stop_down e f :
  1 ≤ f ≤ max_floor e → f < current_floor e →
  add_stop e f = set_down_stops ({[f]} ∪ down_stops e) e.
Proof. intros Hf Hlt. unfold add_stop. test_cases; try done; lia. Qed.

(** Rewrites every call of [add_stop] of the goal into its result, the
    hypotheses telling where the floor lies. *)
Ltac add_stop_results :=
  repeat match goal with
         | |- context [add_stop ?x ?y] =>
             first [ rewrite (add_stop_out_of_range x y) by (simpl; lia)
                   | rewrite (add_stop_here x y) by (simpl; lia)
                   | rewrite (add_stop_up x y) by (simpl; lia)
                   | rewrite (add_stop_down x y) by (simpl; lia) ]
         end.

(** [add_stop] twice with the same floor is [add_stop] once, and the
    order of two calls of [add_stop] does not matter. *)
Theorem add_stop_idempotent_commutes e f g :
  add_stop (add_stop e f) f = add_stop e f
  ∧ add_stop (add_stop e f) g = add_stop (add_stop e g) f.
Proof.
  assert (∀ x, x < 1 ∨ x > max_floor e ∨ x = current_floor e
               ∨ (1 ≤ x ≤ max_floor e ∧ current_floor e < x)
               ∨ (1 ≤ x ≤ max_floor e ∧ x < current_floor e)) as Hcase
    by (intros x; lia).
  split.
  - destruct (Hcase f) as [? | [? | [? | [? | ?]]]]; add_stop_results;
      try reflexivity;
      unfold set_up_stops, set_down_stops; simpl; f_equal; same_floors.
  - destruct (Hcase f) as [? | [? | [? | [? | ?]]]],
      (Hcase g) as [? | [? | [? | [? | ?]]]]; add_stop_results;
      try reflexivity;
      unfold set_up_stops, set_down_stops; simpl; f_equal; same_floors.
Qed.

(** A floor of the building other than the car's floor is pending after
    [add_stop], above the car in [up_stops] and below it in
    [down_stops]; the floors that were pending still are, and the car
    is otherwise as it was. *)
Theorem add_stop_pending e f :
  1 ≤ f ≤ max_floor e → f ≠ current_floor e →
  (current_floor e < f → f ∈ up_stops (add_stop e f)
                         ∧ down_stops (add_stop e f) = down_stops e)
  ∧ (f < current_floor e → f ∈ down_stops (add_stop e f)
                           ∧ up_stops (add_stop e f) = up_stops e)
  ∧ up_stops e ⊆ up_stops (add_stop e f)
  ∧ down_stops e ⊆ down_stops (add_stop e f)
  ∧ view (add_stop e f)
    = (current_floor e, state e, direction e,
       up_stops (add_stop e f), down_stops (add_stop e f)).
Proof.
  intros Hf Hne.
  split; [| split; [| split; [| split]]].
  - intros Hlt. unfold add_stop. test_cases; try lia.
    split; [| done]. apply elem_of_union. left. by apply elem_of_singleton.
  - intros Hlt. unfold add_stop. test_cases; try lia.
    split; [| done]. apply elem_of_union. left. by apply elem_of_singleton.
  - apply add_stop_up_stops.
  - apply add_stop_down_stops.
  - unfold view. by destruct (add_stop_fields e f) as (_ & -> & -> & -> & _).
Qed.

Lemma add_stop_pending_witness :
  (current_floor going_up_at_3 < 7 →
   7 ∈ up_stops (add_stop going_up_at_3 7)
   ∧ down_stops (add_stop going_up_at_3 7) = down_stops going_up_at_3)
  ∧ (7 < current_floor going_up_at_3 →
     7 ∈ down_stops (add_stop going_up_at_3 7)
     ∧ up_stops (add_stop going_up_at_3 7) = up_stops going_up_at_3)
  ∧ up_stops going_up_at_3 ⊆ up_stops (add_stop going_up_at_3 7)
  ∧ down_stops going_up_at_3 ⊆ down_stops (add_stop going_up_at_3 7)
  ∧ view (add_stop going_up_at_3 7)
    = (current_floor going_up_at_3, state going_up_at_3,
       direction going_up_at_3,
       up_stops (add_stop going_up_at_3 7),
       down_stops (add_stop going_up_at_3 7)).
Proof. apply (add_stop_pending going_up_at_3 7); compute_done. Defined.

Lemma move_kept_or_stopped e f :
  f ∈ up_stops e ∨ f ∈ down_stops e →
  (f ∈ up_stops (move e).1 ∨ f ∈ down_stops (move e).1)
  ∨ (f = current_floor e
     ∧ move e = (stopped e, [Stopped (elevator_id e) f;
                             DoorClosed (elevator_id e)])).
Proof.
  intros Hf. destruct (move_spec e); simpl; auto.
  destruct (decide (f = current_floor e)) as [-> | Hne]; [by right |].
  left. destruct Hf as [Hf | Hf]; [left | right];
    (apply elem_of_difference; split; [done |]);
    by rewrite elem_of_singleton.
Qed.

(** A floor that was pending before [move] is pending after it, unless
    the car is at that floor and [move] is the stop there, with its two
    messages; and [move] adds no pending floor. *)
Theorem move_serves_or_keeps e f :
  f ∈ up_stops e ∨ f ∈ down_stops e →
  ((f ∈ up_stops (move e).1 ∨ f ∈ down_stops (move e).1)
   ∨ (f = current_floor e
      ∧ move e = (stopped e, [Stopped (elevator_id e) f;
                              DoorClosed (elevator_id e)])))
  ∧ up_stops (move e).1 ⊆ up_stops e
  ∧ down_stops (move e).1 ⊆ down_stops e.
Proof.
  intros Hf. split; [by apply move_kept_or_stopped |].
  split; [apply move_up_stops_subseteq |].
  destruct (move_spec e); simpl; try reflexivity.
  intros x Hx. by apply elem_of_difference in Hx as [? _].
Qed.

Lemma move_serves_or_keeps_witness :
  ((5 ∈ up_stops (move going_up_at_3).1
    ∨ 5 ∈ down_stops (move going_up_at_3).1)
   ∨ (5 = current_floor going_up_at_3
      ∧ move going_up_at_3
        = (stopped going_up_at_3,
           [Stopped (elevator_id going_up_at_3) 5;
            DoorClosed (elevator_id going_up_at_3)])))
  ∧ up_stops (move going_up_at_3).1 ⊆ up_stops going_up_at_3
  ∧ down_stops (move going_up_at_3).1 ⊆ down_stops going_up_at_3.
Proof. apply (move_serves_or_keeps going_up_at_3 5). left. compute_done. Defined.

(** [move] never adds a pending floor. *)
Lemma move_down_stops_subseteq e : down_stops (move e).1 ⊆ down_stops e.
Proof.
  destruct (move_spec e); simpl; try reflexivity.
  intros f Hf. by apply elem_of_difference in Hf as [? _].
Qed.

(** One call of [move] changes the floor by one at most; it leaves the
    floor as it is when it prints a stop, and goes one floor up or down
    exactly when it prints so; the id, the top floor, the capacity and
    the load of the car stay as they are. *)
Theorem move_one_floor e :
  Z.abs (current_floor (move e).1 - current_floor e) ≤ 1
  ∧ (∀ id f, Stopped id f ∈ (move e).2 →
             current_floor (move e).1 = current_floor e)
  ∧ (∀ id f, MovingUp id f ∈ (move e).2 →
             f = current_floor e + 1 ∧ current_floor (move e).1 = f)
  ∧ (∀ id f, MovingDown id f ∈ (move e).2 →
             f = current_floor e - 1 ∧ current_floor (move e).1 = f)
  ∧ (elevator_id (move e).1, max_floor (move e).1,
     capacity (move e).1, current_load (move e).1)
    = (elevator_id e, max_floor e, capacity e, current_load e).
Proof.
  destruct (move_spec e); simpl; (split; [lia |]);
    (split; [intros id f Hin
            | split; [intros id f Hin
                     | split; [intros id f Hin | reflexivity]]]);
    in_literal Hin; inversion Hin; subst; lia.
Qed.

(** *** The floors of a car *)

Lemma floors_ok_init id m : floors_ok (Elevator_init id m).
Proof.
  split; [| split; simpl; [lia | by right]].
  intros f [Hf | Hf]; simpl in Hf; by apply not_elem_of_empty in Hf.
Qed.

Lemma floors_ok_add_stop e f : floors_ok e → floors_ok (add_stop e f).
Proof.
  intros (Hin & Hlow & Hhigh). unfold floors_ok.
  destruct (add_stop_fields e f) as (_ & -> & _ & _ & ->).
  split; [| done].
  unfold add_stop. test_cases; try done;
    intros x [Hx | Hx]; auto;
    apply elem_of_union in Hx as [->%elem_of_singleton | Hx]; auto; lia.
Qed.

Lemma floors_ok_move e : stops_ok e → floors_ok e → floors_ok (move e).1.
Proof.
  intros Hok (Hin & Hlow & Hhigh). unfold floors_ok.
  destruct (move_spec e) as
    [Hmaint | Hmaint Hstop | Hmaint Hstop Hup0 Hdown0
     | Hmaint Hstop Hup1 Hway | Hmaint Hstop Hdown1 Hway]; simpl;
    try done.
  - split; [| done].
    intros f [Hf | Hf]; apply elem_of_difference in Hf as [Hf _]; auto.
  - destruct (stops_ok_strict e Hok Hstop) as [Hup _].
    apply set_choose_L in Hup1 as [x Hx].
    specialize (Hup x Hx). pose proof (Hin x (or_introl Hx)).
    split; [done |]. split; [lia | left; lia].
  - destruct (stops_ok_strict e Hok Hstop) as [_ Hdown].
    apply set_choose_L in Hdown1 as [x Hx].
    specialize (Hdown x Hx). pose proof (Hin x (or_intror Hx)).
    split; [done |]. split; [lia | left; lia].
Qed.

Lemma car_inv_init id m : car_inv m (Elevator_init id m).
Proof.
  split; [split; [apply stops_ok_init | apply state_ok_init] |].
  split; [apply floors_ok_init | done].
Qed.

Lemma car_inv_add_stop m e f : car_inv m e → car_inv m (add_stop e f).
Proof.
  intros (Hok & Hfl & Hm & Hcap & Hload).
  split; [by apply car_ok_add_stop |].
  split; [by apply floors_ok_add_stop |].
  destruct (add_stop_fields e f) as (_ & _ & _ & _ & ->).
  split; [done |]. unfold add_stop. test_cases; done.
Qed.

Lemma car_inv_move m e : car_inv m e → car_inv m (move e).1.
Proof.
  intros ([Hs Hst] & Hfl & Hm & Hcap & Hload).
  split; [split; [by apply stops_ok_move | by apply state_ok_move] |].
  split; [by apply floors_ok_move |].
  destruct (move_spec e); simpl; done.
Qed.

Lemma car_inv_step_elevator m e :
  car_inv m e → car_inv m (step_elevator e).1.
Proof.
  intros He. apply step_elevator_keeps; [| done]. apply car_inv_move.
Qed.

End more_car.

Section more_controller.
Implicit Types (c : ElevatorController) (e : Elevator) (op : Op).

Lemma reached_car_inv ops n m :
  Forall (car_inv m) (elevators (run ops (ElevatorController_init n m)).1).
Proof.
  apply run_kept.
  - intros e f. apply car_inv_add_stop.
  - intros e. apply car_inv_step_elevator.
  - apply init_kept. intros id. apply car_inv_init.
Qed.

Lemma run_num_floors ops c : num_floors (run ops c).1 = num_floors c.
Proof.
  revert c. induction ops as [|op ops IH]; intros c; [done |].
  rewrite run_cons, IH.
  destruct op as [f d | id f |]; simpl; try done.
  - unfold request_elevator.
    by destruct (select_elevator _ _ _) as [[i e] |].
  - destruct (destination_request c id f) as [[c1 out] | x] eqn:Hd;
      [| done].
    unfold destination_request in Hd.
    destruct (py_index _ _) as [[i e] | y]; [| done].
    by injection Hd as <- _.
Qed.

(** In every state a controller reaches, every car is at a floor of the
    building (at floor 1 when the building has no floor) and every
    pending floor is a floor of the building. *)
Theorem floors_in_range (ops : list Op) (n m : Z) :
  Forall (λ e, 1 ≤ current_floor e ≤ Z.max 1 m
               ∧ ∀ f, f ∈ up_stops e ∨ f ∈ down_stops e → 1 ≤ f ≤ m)
         (elevators (run ops (ElevatorController_init n m)).1).
Proof.
  eapply Forall_impl; [apply (reached_car_inv ops n m) |].
  intros e (_ & (Hin & Hlow & Hhigh) & Hm & _). rewrite Hm in *.
  split; [lia | done].
Qed.

(** The fleet is the same in every state a controller reaches: as many
    cars as it was built with, the car at position [j] of the list has
    id [j + 1], and every car has the top floor, the capacity and the
    load it was built with. *)
Theorem fleet_constant (ops : list Op) (n m : Z) :
  let c := (run ops (ElevatorController_init n m)).1 in
  length (elevators c) = Z.to_nat n
  ∧ num_floors c = m
  ∧ ∀ (j : nat) e, elevators c !! j = Some e →
      elevator_id e = Z.of_nat j + 1 ∧ max_floor e = m
      ∧ capacity e = 10 ∧ current_load e = 0.
Proof.
  intros c. split; [apply reached_length |]. split.
  - subst c. by rewrite run_num_floors.
  - intros j e Hj. split; [by eapply reached_id |].
    pose proof (Forall_lookup_1 _ _ _ _ (reached_car_inv ops n m) Hj)
      as (_ & _ & ? & ? & ?). done.
Qed.

Lemma set_elevators_same c : set_elevators (elevators c) c = c.
Proof. by destruct c. Qed.

(** A request for a floor that is not a floor of the building changes
    nothing, whether it is a hall call, which still prints the car it
    is assigned to, or a car call. *)
Theorem out_of_range_request (ops : list Op) (n m f : Z) :
  f < 1 ∨ f > m →
  let c := (run ops (ElevatorController_init n m)).1 in
  (∀ d, (request_elevator c f d).1 = c
        ∧ (0 < n → ∃ id, (request_elevator c f d).2
                         = [Requested f d; Assigned id]))
  ∧ (∀ id, (apply_op c (CarCall id f)).1 = c).
Proof.
  intros Hf c.
  assert (∀ (i : nat) e, elevators c !! i = Some e →
            set_elevators (<[i := add_stop e f]> (elevators c)) c = c)
    as Hsame.
  { intros i e Hi.
    pose proof (Forall_lookup_1 _ _ _ _ (reached_car_inv ops n m) Hi)
      as (_ & _ & Hm & _).
    rewrite add_stop_out_of_range by (rewrite Hm; done).
    rewrite list_insert_id by done. apply set_elevators_same. }
  split.
  - intros d. unfold request_elevator, select_elevator.
    unfold NearestCarScheduler_scheduler.
    destruct (nearest_select _ _) as [[i e] |] eqn:Hsel; simpl.
    + apply nearest_select_Some in Hsel as (Hi & _).
      split; [by apply Hsame | by eexists].
    + split; [done |]. intros Hn. exfalso.
      eapply nearest_select_is_Some; [| | exact Hsel].
      * by apply reached_non_empty.
      * eapply Forall_impl; [apply reached_car_ok |].
        apply car_ok_available.
  - intros id. simpl. unfold destination_request.
    destruct (py_index _ _) as [[i e] | x] eqn:Hidx; simpl; [| done].
    apply py_index_Ok in Hidx. by apply Hsame.
Qed.

Lemma out_of_range_request_witness :
  let c := (run [CarCall 1 4; Step]
                (ElevatorController_init 2 10)).1 in
  (∀ d, (request_elevator c 11 d).1 = c
        ∧ (0 < 2 → ∃ id, (request_elevator c 11 d).2
                         = [Requested 11 d; Assigned id]))
  ∧ (∀ id, (apply_op c (CarCall id 11)).1 = c).
Proof.
  apply (out_of_range_request [CarCall 1 4; Step] 2 10 11). right. lia.
Defined.

(** A hall call leaves the fleet as long as it was and changes one car
    at most: every car is as before, or it is the car the scheduler
    returns and the floor has been added to it with [add_stop]. *)
Theorem request_elevator_one_car c (f : Z) (d : Direction.t) :
  length (elevators (request_elevator c f d).1) = length (elevators c)
  ∧ ∀ (j : nat) e,
      elevators c !! j = Some e →
      elevators (request_elevator c f d).1 !! j = Some e
      ∨ (elevators (request_elevator c f d).1 !! j = Some (add_stop e f)
         ∧ select_elevator (scheduler c) (elevators c) (Request.Build f d)
           = Some (j, e)).
Proof.
  unfold request_elevator, select_elevator, NearestCarScheduler_scheduler.
  destruct (nearest_select _ _) as [[i e0] |] eqn:Hsel; simpl.
  - apply nearest_select_Some in Hsel as (Hi & _).
    split; [apply length_insert |].
    intros j e Hj. destruct (decide (i = j)) as [-> | Hne].
    + right. rewrite Hi in Hj. injection Hj as ->.
      split; [| done]. apply list_lookup_insert_eq.
      by eapply lookup_lt_Some.
    + left. by rewrite list_lookup_insert_ne.
  - split; [done |]. intros j e Hj. by left.
Qed.

(** A car call with the id of a car of the fleet is answered by that
    car, the one at position [id - 1]: the floor is added to it with
    [add_stop] and the message of the call is printed. *)
Theorem car_call_reaches_its_car (ops : list Op) (n m id f : Z) :
  1 ≤ id ≤ n →
  let c := (run ops (ElevatorController_init n m)).1 in
  ∃ e, elevators c !! Z.to_nat (id - 1) = Some e
       ∧ elevator_id e = id
       ∧ destination_request c id f
         = Ok (set_elevators
                 (<[Z.to_nat (id - 1) := add_stop e f]> (elevators c)) c,
               [Destination id f]).
Proof.
  intros Hid c.
  pose proof (reached_length ops n m) as Hlen. fold c in Hlen.
  destruct (lookup_lt_is_Some_2 (elevators c) (Z.to_nat (id - 1)))
    as [e He]; [lia |].
  exists e. split; [done |]. split.
  - rewrite (reached_id ops n m _ e He). lia.
  - unfold destination_request, py_index.
    rewrite (bool_decide_eq_false_2 (id - 1 < 0)) by lia.
    rewrite (bool_decide_eq_false_2 (id - 1 < 0)) by lia.
    rewrite (bool_decide_eq_false_2 (id - 1 >= _)) by lia.
    simpl. by rewrite He.
Qed.

Lemma car_call_reaches_its_car_witness :
  let c := (run [HallCall 3 Direction.UP; Step]
                (ElevatorController_init 3 10)).1 in
  ∃ e, elevators c !! Z.to_nat (2 - 1) = Some e
       ∧ elevator_id e = 2
       ∧ destination_request c 2 7
         = Ok (set_elevators
                 (<[Z.to_nat (2 - 1) := add_stop e 7]> (elevators c)) c,
               [Destination 2 7]).
Proof.
  apply (car_call_reaches_its_car [HallCall 3 Direction.UP; Step] 3 10 2 7).
  lia.
Defined.

(** When every car of the fleet is in [MAINTENANCE], and so when the
    fleet is empty, a hall call prints that no elevator is available and
    leaves the controller as it was. *)
Theorem no_car_available c (f : Z) (d : Direction.t) :
  Forall (λ e, state e = ElevatorState.MAINTENANCE) (elevators c) →
  request_elevator c f d = (c, [Requested f d; NoElevatorAvailable]).
Proof.
  intros Hall. unfold request_elevator, select_elevator.
  unfold NearestCarScheduler_scheduler.
  destruct (nearest_select _ _) as [[i e] |] eqn:Hsel; [| done].
  apply nearest_select_Some in Hsel as (Hi & Ha & _).
  pose proof (Forall_lookup_1 _ _ _ _ Hall Hi) as Hst.
  unfold is_available in Ha. rewrite Hst in Ha. done.
Qed.

Lemma no_car_available_witness :
  request_elevator out_of_service_fleet 4 Direction.UP
  = (out_of_service_fleet,
     [Requested 4 Direction.UP; NoElevatorAvailable]).
Proof.
  apply (no_car_available out_of_service_fleet 4 Direction.UP).
  repeat constructor.
Defined.

(** A car in [MAINTENANCE] still takes the floors it is given with
    [add_stop], but no number of steps moves it or serves them, and the
    scheduler never returns it. *)
Theorem maintenance_car_stuck e (k : nat) :
  state e = ElevatorState.MAINTENANCE →
  ticks k e = (e, [])
  ∧ moves k e = (e, [])
  ∧ (∀ f, state (add_stop e f) = ElevatorState.MAINTENANCE)
  ∧ (∀ f, 1 ≤ f ≤ max_floor e → current_floor e < f →
          f ∈ up_stops (add_stop e f))
  ∧ (∀ es request (i : nat),
       select_elevator mkNearestCarScheduler es request ≠ Some (i, e)).
Proof.
  intros Hst.
  assert (move e = (e, [])) as Hmove.
  { unfold move. by rewrite (bool_decide_eq_true_2 _ Hst). }
  assert (step_elevator e = (e, [])) as Hstep.
  { unfold step_elevator. rewrite Hmove. by destruct (_ || _). }
  split; [| split; [| split; [| split]]].
  - induction k as [|k IH]; [done |]. simpl. by rewrite Hstep, IH.
  - induction k as [|k IH]; [done |]. rewrite moves_S, Hmove. simpl.
    by rewrite IH.
  - intros f. by destruct (add_stop_fields e f) as (_ & _ & _ & -> & _).
  - intros f Hf Hlt. rewrite add_stop_up by done. simpl.
    apply elem_of_union. left. by apply elem_of_singleton.
  - intros es request i Hsel.
    apply nearest_select_Some in Hsel as (_ & Ha & _).
    unfold is_available in Ha. rewrite Hst in Ha. done.
Qed.

Lemma maintenance_car_stuck_witness :
  ticks 5 out_of_service_car = (out_of_service_car, [])
  ∧ moves 5 out_of_service_car = (out_of_service_car, [])
  ∧ (∀ f, state (add_stop out_of_service_car f)
          = ElevatorState.MAINTENANCE)
  ∧ (∀ f, 1 ≤ f ≤ max_floor out_of_service_car →
          current_floor out_of_service_car < f →
          f ∈ up_stops (add_stop out_of_service_car f))
  ∧ (∀ es request (i : nat),
       select_elevator mkNearestCarScheduler es request
       ≠ Some (i, out_of_service_car)).
Proof. apply (maintenance_car_stuck out_of_service_car 5). reflexivity. Defined.

(** In a building of 100 floors at most, for a hall call at a floor of
    the building: when some car of the fleet moves towards the request
    (or is idle), the car the scheduler returns does so too. *)
Theorem bonus_decides (ops : list Op) (n m f : Z) (d : Direction.t) :
  m ≤ 100 → 1 ≤ f ≤ m →
  let c := (run ops (ElevatorController_init n m)).1 in
  ∀ (i j : nat) e e',
    select_elevator (scheduler c) (elevators c) (Request.Build f d)
    = Some (i, e) →
    elevators c !! j = Some e' →
    is_moving_towards e' f d = true →
    is_moving_towards e f d = true.
Proof.
  intros Hm Hf c i j e e' Hsel Hj Htowards.
  apply nearest_select_Some in Hsel as (Hi & _ & Hmin).
  pose proof (Forall_lookup_1 _ _ _ _ (reached_car_ok ops n m) Hj) as Hok.
  destruct (Hmin j e' Hj (car_ok_available _ Hok)) as [Hle _].
  pose proof (Forall_lookup_1 _ _ _ _ (reached_car_inv ops n m) Hj)
    as (_ & (_ & Hlow & Hhigh) & Hmax & _).
  rewrite Hmax in Hhigh.
  destruct (is_moving_towards e f d) eqn:He; [done |]. exfalso.
  unfold score, get_distance in Hle. simpl in Hle.
  rewrite He, Htowards in Hle. lia.
Qed.

Lemma bonus_decides_witness :
  is_moving_towards
    (moved Direction.UP 1
       (moved Direction.UP 1 (add_stop (Elevator_init 1 10) 8)))
    4 Direction.UP = true.
Proof.
  apply (bonus_decides [CarCall 1 8; Step; Step] 2 10 4 Direction.UP
           ltac:(lia) ltac:(lia) 0%nat 1%nat _ (Elevator_init 2 10));
    compute_done.
Defined.

(** *** A car with direction [IDLE] has never moved *)

Lemma never_moved_add_stop e f :
  (direction e = Direction.IDLE →
   current_floor e = 1 ∧ down_stops e = ∅) →
  direction (add_stop e f) = Direction.IDLE →
  current_floor (add_stop e f) = 1 ∧ down_stops (add_stop e f) = ∅.
Proof.
  destruct (add_stop_fields e f) as (_ & -> & -> & _).
  intros H Hdir. destruct (H Hdir) as [Hcur Hdown]. split; [done |].
  unfold add_stop. test_cases; try done. lia.
Qed.

Lemma never_moved_step_elevator e :
  (direction e = Direction.IDLE →
   current_floor e = 1 ∧ down_stops e = ∅) →
  direction (step_elevator e).1 = Direction.IDLE →
  current_floor (step_elevator e).1 = 1
  ∧ down_stops (step_elevator e).1 = ∅.
Proof.
  intros H Hdir.
  destruct (decide (direction e = Direction.IDLE)) as [Hidle | Hnot];
    [| by apply step_elevator_not_idle in Hnot].
  assert (should_stop e = false) as Hs.
  { destruct (should_stop e) eqn:Hs; [| done].
    apply should_stop_true in Hs as [[? _] | [? _]]; congruence. }
  unfold step_elevator in *.
  destruct (truthy (up_stops e) || truthy (down_stops e)); [| auto].
  destruct (move_spec e); simpl in *; try congruence; auto.
Qed.

Lemma apply_op_keeps_direction c op (i : nat) e :
  elevators c !! i = Some e →
  ∃ e', elevators (apply_op c op).1 !! i = Some e'
        ∧ (direction e ≠ Direction.IDLE → direction e' ≠ Direction.IDLE).
Proof.
  intros Hi.
  assert (∀ (j : nat) e0 f, elevators c !! j = Some e0 →
            ∃ e', <[j := add_stop e0 f]> (elevators c) !! i = Some e'
                  ∧ (direction e ≠ Direction.IDLE →
                     direction e' ≠ Direction.IDLE)) as Hins.
  { intros j e0 f Hj. destruct (decide (j = i)) as [-> | Hne].
    - exists (add_stop e0 f). rewrite Hi in Hj. injection Hj as <-.
      split; [apply list_lookup_insert_eq; by eapply lookup_lt_Some |].
      by destruct (add_stop_fields e f) as (_ & _ & -> & _).
    - exists e. by rewrite list_lookup_insert_ne. }
  destruct op as [f d | id f |]; simpl.
  - unfold request_elevator, select_elevator, NearestCarScheduler_scheduler.
    destruct (nearest_select _ _) as [[j e0] |] eqn:Hsel; simpl;
      [| by exists e].
    apply nearest_select_Some in Hsel as (Hj & _). by apply Hins.
  - unfold destination_request.
    destruct (py_index _ _) as [[j e0] | x] eqn:Hidx; simpl;
      [| by exists e].
    apply py_index_Ok in Hidx. by apply Hins.
  - exists (step_elevator e).1. split.
    + rewrite <- list_fmap_compose, list_lookup_fmap. by rewrite Hi.
    + apply step_elevator_not_idle.
Qed.

(** In every state a controller reaches, a car whose direction is
    [IDLE] is at floor 1, in state [IDLE], with no floor pending below;
    and a car whose direction is not [IDLE] never gets direction [IDLE]
    again, whatever the calls that follow. *)
Theorem idle_means_never_moved :
  (∀ (ops : list Op) (n m : Z),
     Forall (λ e, direction e = Direction.IDLE →
                  current_floor e = 1 ∧ down_stops e = ∅
                  ∧ state e = ElevatorState.IDLE)
            (elevators (run ops (ElevatorController_init n m)).1))
  ∧ (∀ (ops : list Op) c (i : nat) e,
       elevators c !! i = Some e → direction e ≠ Direction.IDLE →
       ∃ e', elevators (run ops c).1 !! i = Some e'
             ∧ direction e' ≠ Direction.IDLE).
Proof.
  split.
  - intros ops n m.
    assert (Forall (λ e, direction e = Direction.IDLE →
                         current_floor e = 1 ∧ down_stops e = ∅)
                   (elevators (run ops (ElevatorController_init n m)).1))
      as Hnever.
    { apply run_kept.
      - intros e f. apply never_moved_add_stop.
      - intros e. apply never_moved_step_elevator.
      - apply init_kept. by intros id _. }
    apply Forall_lookup. intros i e Hi Hdir.
    destruct (Forall_lookup_1 _ _ _ _ Hnever Hi Hdir) as [? ?].
    pose proof (Forall_lookup_1 _ _ _ _ (reached_car_ok ops n m) Hi)
      as [_ (_ & Hst & _)]. auto.
  - intros ops. induction ops as [|op ops IH]; intros c i e Hi Hdir.
    + by exists e.
    + rewrite run_cons.
      destruct (apply_op_keeps_direction c op i e Hi) as (e1 & Hi1 & Hd1).
      apply (IH _ i e1 Hi1). auto.
Qed.

End more_controller.


(** ** All pending floors are served *)

Section service.
Implicit Types (e : Elevator) (f : Z) (k : nat).

Lemma truthy_true (X : gset Z) : X ≠ ∅ → truthy X = true.
Proof. intros H. unfold truthy. by apply bool_decide_eq_true_2. Qed.

Lemma truthy_false (X : gset Z) : X = ∅ → truthy X = false.
Proof.
  intros H. unfold truthy. apply bool_decide_eq_false_2. by intros ?.
Qed.

Lemma travel_left_up e :
  up_stops e ≠ ∅ → down_stops e = ∅ ∨ direction e = Direction.UP →
  travel_left e
  = (max_floor e - current_floor e)
    + (if decide (down_stops e = ∅) then 0 else max_floor e - 1).
Proof.
  intros Hup Hway. unfold travel_left, going_up.
  rewrite (truthy_true _ Hup). simpl.
  destruct (decide (down_stops e = ∅)) as [Hd | Hd].
  - by rewrite (truthy_false _ Hd).
  - rewrite (truthy_true _ Hd). simpl.
    destruct Hway as [? | Hdir]; [done |].
    by rewrite (bool_decide_eq_true_2 _ Hdir).
Qed.

Lemma travel_left_down e :
  down_stops e ≠ ∅ → up_stops e = ∅ ∨ direction e ≠ Direction.UP →
  travel_left e
  = (current_floor e - 1)
    + (if decide (up_stops e = ∅) then 0 else max_floor e - 1).
Proof.
  intros Hdown Hway. unfold travel_left, going_up.
  rewrite (truthy_true _ Hdown). simpl.
  destruct (decide (up_stops e = ∅)) as [Hu | Hu].
  - by rewrite (truthy_false _ Hu).
  - rewrite (truthy_true _ Hu). simpl.
    destruct Hway as [? | Hdir]; [done |].
    by rewrite (bool_decide_eq_false_2 _ Hdir).
Qed.

Lemma travel_left_none e :
  up_stops e = ∅ → down_stops e = ∅ → travel_left e = 0.
Proof.
  intros Hu Hd. unfold travel_left, going_up.
  by rewrite (truthy_false _ Hu), (truthy_false _ Hd).
Qed.

(** The travel that is left is never negative, and it is at most twice
    through the building. *)
Lemma travel_left_bounds e :
  floors_ok e →
  0 ≤ travel_left e
  ∧ (up_stops e ≠ ∅ ∨ down_stops e ≠ ∅ →
     travel_left e ≤ 2 * (max_floor e - 1)).
Proof.
  intros (Hin & Hlow & Hhigh).
  assert (up_stops e ≠ ∅ → 1 ≤ max_floor e) as Hu.
  { intros [x Hx]%set_choose_L. specialize (Hin x (or_introl Hx)). lia. }
  assert (down_stops e ≠ ∅ → 1 ≤ max_floor e) as Hd.
  { intros [x Hx]%set_choose_L. specialize (Hin x (or_intror Hx)). lia. }
  destruct (decide (up_stops e = ∅)) as [Hu0 | Hu1];
    destruct (decide (down_stops e = ∅)) as [Hd0 | Hd1].
  - rewrite travel_left_none by done. split; [lia |]. intros [? | ?]; done.
  - rewrite travel_left_down by auto.
    specialize (Hd Hd1). destruct (decide _); [| done]. lia.
  - rewrite travel_left_up by auto.
    specialize (Hu Hu1). destruct (decide _); [| done]. lia.
  - specialize (Hu Hu1).
    destruct (decide (direction e = Direction.UP)).
    + rewrite travel_left_up by auto. destruct (decide _); [done |]. lia.
    + rewrite travel_left_down by auto. destruct (decide _); [done |]. lia.
Qed.

Lemma size_remove (X : gset Z) (x : Z) :
  x ∈ X → Z.of_nat (size (X ∖ {[x]})) = Z.of_nat (size X) - 1.
Proof.
  intros Hx. rewrite size_difference by (by apply singleton_subseteq_l).
  rewrite size_singleton.
  assert (size X ≠ 0%nat).
  { apply size_non_empty_iff. intros HX.
    apply (not_elem_of_empty (C := gset Z) x). by rewrite <- HX. }
  lia.
Qed.

Lemma remove_absent (X : gset Z) (x : Z) : x ∉ X → X ∖ {[x]} = X.
Proof.
  intros Hx. apply set_eq. intros y.
  rewrite elem_of_difference, elem_of_singleton.
  split; [by intros [? _] |]. intros Hy. split; [done |]. by intros ->.
Qed.

Lemma size_pending (X : gset Z) : X ≠ ∅ → 1 ≤ Z.of_nat (size X).
Proof.
  intros HX. assert (size X ≠ 0%nat); [| lia].
  apply size_non_empty_iff. by intros ?%leibniz_equiv.
Qed.

(** One call of [move] on a car with pending floors takes at least one
    unit of the work that is left. *)
Lemma work_left_move (m : Z) e :
  car_inv m e → up_stops e ≠ ∅ ∨ down_stops e ≠ ∅ →
  work_left (move e).1 + 1 ≤ work_left e.
Proof.
  intros ([Hok (Hst & _)] & Hfl & _) Hpending.
  pose proof Hfl as (Hin & Hlow & Hhigh).
  destruct Hok as [Hup Hdown].
  destruct (move_spec e) as
    [Hmaint | Hmaint Hstop | Hmaint Hstop Hup0 Hdown0
     | Hmaint Hstop Hup1 Hway | Hmaint Hstop Hdown1 Hway]; simpl.
  - destruct Hst; congruence.
  - (* the stop *)
    assert (floors_ok (stopped e)) as Hfl'.
    { split; [| done]. simpl.
      intros f [Hf | Hf]; apply elem_of_difference in Hf as [Hf _]; auto. }
    pose proof (travel_left_bounds _ Hfl') as [Hnonneg Hle].
    unfold work_left.
    apply should_stop_true in Hstop as [[Hdir Hcur] | [Hdir Hcur]].
    + assert (current_floor e ∉ down_stops e) as Hnot.
      { intros Hd. destruct (Hdown _ Hd) as [? | [_ ?]]; [lia | congruence]. }
      pose proof (Hin _ (or_introl Hcur)) as Hrange.
      assert (up_stops e ≠ ∅) as Hu by (intros H0; by rewrite H0 in Hcur).
      rewrite (travel_left_up e) by auto.
      cbn [stopped up_stops down_stops].
      rewrite (size_remove (up_stops e)) by done. rewrite (remove_absent _ _ Hnot).
      destruct (decide (up_stops e ∖ {[current_floor e]} = ∅)) as [Hu' | Hu'].
      * destruct (decide (down_stops e = ∅)) as [Hd | Hd].
        -- rewrite travel_left_none; simpl; [lia | done |].
           by rewrite remove_absent.
        -- rewrite travel_left_down; simpl;
             [| by rewrite remove_absent | by left].
           rewrite decide_True by done. lia.
      * rewrite travel_left_up; simpl; [| done | by right].
        rewrite (remove_absent _ _ Hnot). lia.
    + assert (current_floor e ∉ up_stops e) as Hnot.
      { intros Hu. destruct (Hup _ Hu) as [? | [_ ?]]; [lia | congruence]. }
      pose proof (Hin _ (or_intror Hcur)) as Hrange.
      assert (down_stops e ≠ ∅) as Hd by (intros H0; by rewrite H0 in Hcur).
      rewrite (travel_left_down e);
        [| done | right; congruence].
      cbn [stopped up_stops down_stops].
      rewrite (size_remove (down_stops e)) by done. rewrite (remove_absent _ _ Hnot).
      destruct (decide (down_stops e ∖ {[current_floor e]} = ∅))
        as [Hd' | Hd'].
      * destruct (decide (up_stops e = ∅)) as [Hu | Hu].
        -- rewrite travel_left_none; simpl; [lia | | done].
           by rewrite remove_absent.
        -- rewrite travel_left_up; simpl;
             [| by rewrite remove_absent | by left].
           rewrite decide_True by done. lia.
      * rewrite travel_left_down; simpl; [| done | right; congruence].
        rewrite (remove_absent _ _ Hnot). lia.
  - destruct Hpending; done.
  - unfold work_left. rewrite (travel_left_up e) by done.
    rewrite travel_left_up; simpl; [lia | done | by right].
  - unfold work_left.
    assert (up_stops e = ∅ ∨ direction e ≠ Direction.UP) as Hway' by done.
    rewrite (travel_left_down e) by done.
    rewrite travel_left_down; simpl; [lia | done | by right].
Qed.

Lemma work_left_pending e :
  floors_ok e → up_stops e ≠ ∅ ∨ down_stops e ≠ ∅ → 1 ≤ work_left e.
Proof.
  intros Hfl Hp. destruct (travel_left_bounds e Hfl) as [H0 _].
  unfold work_left. destruct Hp as [H | H]; apply size_pending in H; lia.
Qed.

Lemma ticks_S k e :
  ticks (S k) e
  = ((ticks k (step_elevator e).1).1,
     (step_elevator e).2 ++ (ticks k (step_elevator e).1).2).
Proof.
  simpl. destruct (step_elevator e) as [e1 out1]. simpl.
  by destruct (ticks k e1).
Qed.

Lemma ticks_nothing_pending k e :
  up_stops e = ∅ → down_stops e = ∅ → ticks k e = (e, []).
Proof.
  intros Hu Hd. induction k as [|k IH]; [done |].
  rewrite ticks_S, step_elevator_skip by done. simpl. by rewrite IH.
Qed.

(** After as many steps as there is work left, nothing is pending. *)
Lemma ticks_work_done (m : Z) k e :
  car_inv m e → work_left e ≤ Z.of_nat k →
  up_stops (ticks k e).1 = ∅ ∧ down_stops (ticks k e).1 = ∅.
Proof.
  revert e. induction k as [|k IH]; intros e Hinv Hwork.
  - destruct (decide (up_stops e = ∅)) as [Hu | Hu];
      [destruct (decide (down_stops e = ∅)) as [Hd | Hd]; [done |] |].
    + pose proof (work_left_pending e) as Hp.
      destruct Hinv as (_ & Hfl & _). specialize (Hp Hfl (or_intror Hd)). lia.
    + pose proof (work_left_pending e) as Hp.
      destruct Hinv as (_ & Hfl & _). specialize (Hp Hfl (or_introl Hu)). lia.
  - destruct (decide (up_stops e = ∅ ∧ down_stops e = ∅)) as [[Hu Hd] | Hp].
    + by rewrite ticks_nothing_pending.
    + assert (up_stops e ≠ ∅ ∨ down_stops e ≠ ∅) as Hp'.
      { destruct (decide (up_stops e = ∅)); [| by left].
        destruct (decide (down_stops e = ∅)); [| by right]. by destruct Hp. }
      rewrite ticks_S. simpl. rewrite step_elevator_move by done.
      apply IH; [by apply car_inv_move |].
      pose proof (work_left_move m e Hinv Hp'). lia.
Qed.

(** The pending floors are at most as many as the building has floors. *)
Lemma pending_at_most_floors (m : Z) e :
  car_inv m e →
  Z.of_nat (size (up_stops e)) + Z.of_nat (size (down_stops e))
  ≤ Z.max 0 m.
Proof.
  intros ([Hok _] & (Hin & _) & Hm & _). rewrite Hm in Hin.
  assert (up_stops e ## down_stops e) as Hdisj.
  { apply disjoint_intersection_L. by apply stops_ok_disjoint. }
  rewrite <- Nat2Z.inj_add, <- size_union by done.
  assert (up_stops e ∪ down_stops e ⊆ list_to_set (seqZ 1 m)) as Hsub.
  { intros x Hx. apply elem_of_list_to_set, elem_of_seqZ.
    apply elem_of_union in Hx. specialize (Hin x Hx). lia. }
  apply subseteq_size in Hsub.
  rewrite size_list_to_set in Hsub by apply NoDup_seqZ.
  rewrite length_seqZ in Hsub. lia.
Qed.

Lemma work_left_bound (m : Z) e :
  car_inv m e → work_left e ≤ Z.max 0 (3 * m - 2).
Proof.
  intros Hinv. pose proof (pending_at_most_floors m e Hinv) as Hsize.
  pose proof Hinv as (_ & Hfl & Hm & _).
  destruct (travel_left_bounds e Hfl) as [_ Hle]. rewrite Hm in Hle.
  unfold work_left.
  destruct (decide (up_stops e = ∅ ∧ down_stops e = ∅)) as [[Hu Hd] | Hp].
  - rewrite travel_left_none, Hu, Hd by done. rewrite size_empty. lia.
  - assert (up_stops e ≠ ∅ ∨ down_stops e ≠ ∅) as Hp'.
    { destruct (decide (up_stops e = ∅)); [| by left].
      destruct (decide (down_stops e = ∅)); [| by right]. by destruct Hp. }
    specialize (Hle Hp').
    pose proof (work_left_pending e Hfl Hp') as H1. unfold work_left in H1.
    lia.
Qed.

(** A floor that was pending and no longer is after [k] steps has had
    its stop printed. *)
Lemma ticks_served k e f :
  f ∈ up_stops e ∨ f ∈ down_stops e →
  f ∉ up_stops (ticks k e).1 → f ∉ down_stops (ticks k e).1 →
  Stopped (elevator_id e) f ∈ (ticks k e).2.
Proof.
  revert e. induction k as [|k IH]; intros e Hf Hu Hd.
  - simpl in *. destruct Hf; done.
  - rewrite ticks_S in *. simpl in *.
    assert (up_stops e ≠ ∅ ∨ down_stops e ≠ ∅) as Hp.
    { destruct Hf as [Hf | Hf]; [left | right]; intros H0;
        rewrite H0 in Hf; by apply not_elem_of_empty in Hf. }
    rewrite step_elevator_move in * by done.
    apply elem_of_app.
    destruct (move_kept_or_stopped e f Hf) as [Hkept | [_ ->]].
    + right. rewrite <- (move_elevator_id e). by apply IH.
    + left. simpl. apply elem_of_cons. by left.
Qed.

End service.

Section service_by_the_controller.
Implicit Types (c : ElevatorController) (e : Elevator) (k : nat).

Lemma run_app ops1 ops2 c :
  run (ops1 ++ ops2) c
  = ((run ops2 (run ops1 c).1).1,
     (run ops1 c).2 ++ (run ops2 (run ops1 c).1).2).
Proof.
  revert c. induction ops1 as [|op ops1 IH]; intros c; simpl.
  - by destruct (run ops2 c).
  - destruct (apply_op c op) as [c1 out1]. rewrite IH.
    destruct (run ops1 c1) as [c2 out2]. simpl.
    by rewrite app_assoc.
Qed.

(** [k] steps of the controller are [k] steps of each car. *)
Lemma steps_lookup k c (i : nat) e :
  elevators c !! i = Some e →
  elevators (run (replicate k Step) c).1 !! i = Some (ticks k e).1
  ∧ ∀ x, x ∈ (ticks k e).2 → x ∈ (run (replicate k Step) c).2.
Proof.
  revert c e. induction k as [|k IH]; intros c e Hi.
  - split; [done |]. intros x Hx. by apply elem_of_nil in Hx.
  - cbn [replicate]. rewrite ticks_S.
    change (Step :: replicate k Step) with ([Step] ++ replicate k Step).
    rewrite run_app.
    assert (run [Step] c = ((step c).1, (step c).2 ++ [])) as ->.
    { cbn [run apply_op]. by destruct (step c). }
    cbn [fst snd].
    assert (elevators (step c).1 !! i = Some (step_elevator e).1) as Hi1
      by (by rewrite step_lookup, Hi).
    destruct (IH _ _ Hi1) as [Hl Hout]. split; [done |].
    intros x [Hx | Hx]%elem_of_app; apply elem_of_app; [left | right; auto].
    rewrite app_nil_r. cbn [step snd].
    apply list_elem_of_In, in_concat. exists (step_elevator e).2.
    split; apply list_elem_of_In; [| done].
    rewrite <- list_fmap_compose. apply list_elem_of_fmap.
    exists e. split; [done |]. by eapply list_elem_of_lookup_2.
Qed.

(** In every state a controller of [m] floors reaches, [3 * m - 2] steps
    without further calls are enough for both stop sets of every car to
    be empty. *)
Theorem all_stops_emptied (ops : list Op) (n m : Z) (k : nat) :
  3 * m - 2 ≤ Z.of_nat k →
  Forall (λ e, up_stops e = ∅ ∧ down_stops e = ∅)
         (elevators (run (ops ++ replicate k Step)
                         (ElevatorController_init n m)).1).
Proof.
  intros Hk. rewrite run_app. cbn [fst].
  apply Forall_lookup. intros i e' Hi.
  destruct (lookup_lt_is_Some_2
              (elevators (run ops (ElevatorController_init n m)).1) i)
    as [e He].
  { apply lookup_lt_Some in Hi.
    rewrite reached_length. rewrite <- (reached_length (ops ++ replicate k Step) n m).
    by rewrite run_app. }
  destruct (steps_lookup k _ i e He) as [Hl _].
  rewrite Hl in Hi. injection Hi as <-.
  pose proof (Forall_lookup_1 _ _ _ _ (reached_car_inv ops n m) He) as Hinv.
  apply (ticks_work_done m); [done |].
  pose proof (work_left_bound m e Hinv). lia.
Qed.

Lemma all_stops_emptied_witness :
  Forall (λ e, up_stops e = ∅ ∧ down_stops e = ∅)
         (elevators
            (run ([HallCall 7 Direction.UP; CarCall 1 10; Step; Step;
                   CarCall 1 2; HallCall 9 Direction.DOWN]
                  ++ replicate 28 Step)
                 (ElevatorController_init 2 10)).1).
Proof.
  apply (all_stops_emptied
           [HallCall 7 Direction.UP; CarCall 1 10; Step; Step;
            CarCall 1 2; HallCall 9 Direction.DOWN] 2 10 28).
  lia.
Defined.

(** In every state a controller of [m] floors reaches, every floor that
    is pending for a car gets its stop printed, by that car, within
    [3 * m - 2] steps without further calls. *)
Theorem every_stop_served (ops : list Op) (n m : Z) (k : nat)
    (i : nat) (e : Elevator) (f : Z) :
  3 * m - 2 ≤ Z.of_nat k →
  elevators (run ops (ElevatorController_init n m)).1 !! i = Some e →
  f ∈ up_stops e ∨ f ∈ down_stops e →
  Stopped (elevator_id e) f
  ∈ (run (replicate k Step) (run ops (ElevatorController_init n m)).1).2.
Proof.
  intros Hk He Hf.
  destruct (steps_lookup k _ i e He) as [_ Hout]. apply Hout.
  pose proof (Forall_lookup_1 _ _ _ _ (reached_car_inv ops n m) He) as Hinv.
  destruct (ticks_work_done m k e Hinv) as [Hu Hd].
  { pose proof (work_left_bound m e Hinv). lia. }
  apply ticks_served; [done | |].
  - rewrite Hu. apply not_elem_of_empty.
  - rewrite Hd. apply not_elem_of_empty.
Qed.

Lemma every_stop_served_witness :
  Stopped 1 2
  ∈ (run (replicate 28 Step)
         (run [CarCall 1 5; Step; Step; CarCall 1 2]
              (ElevatorController_init 1 10)).1).2.
Proof.
  apply (every_stop_served [CarCall 1 5; Step; Step; CarCall 1 2] 1 10 28
           0%nat going_up_at_3 2);
    [lia | compute_done | right; compute_done].
Defined.

End service_by_the_controller.

(** ** The simulation loop *)

Section simulation.
Implicit Types (c : ElevatorController) (e : Elevator).

(** A step of a controller without pending floors does nothing. *)
Lemma step_nothing_pending c :
  Forall (λ e, up_stops e = ∅ ∧ down_stops e = ∅) (elevators c) →
  step c = (c, []).
Proof.
  intros Hall. unfold step.
  assert (step_elevator <$> elevators c = (λ e, (e, [])) <$> elevators c)
    as ->.
  { apply Forall_fmap_ext. eapply Forall_impl; [done |].
    intros e [Hu Hd]. by apply step_elevator_skip. }
  assert (∀ l : list Elevator,
            fst <$> ((λ e, (e, @nil Event)) <$> l) = l
            ∧ concat (snd <$> ((λ e, (e, @nil Event)) <$> l)) = []) as Hl.
  { induction l as [|e l [IH1 IH2]]; [done |]. simpl.
    split; [by f_equal | done]. }
  destruct (Hl (elevators c)) as [-> ->]. by rewrite set_elevators_same.
Qed.

(** On a controller whose cars all have direction [IDLE] and nothing
    pending, [run_simulation] with one iteration or more stops in its
    first iteration: it prints that all cars are idle at step 0 and
    leaves the controller as it was. *)
Theorem run_simulation_nothing_to_do c (steps : Z) :
  Forall (λ e, direction e = Direction.IDLE
               ∧ up_stops e = ∅ ∧ down_stops e = ∅) (elevators c) →
  0 < steps →
  run_simulation c steps = (c, [AllIdle 0]).
Proof.
  intros Hall Hsteps. unfold run_simulation.
  destruct (Z.to_nat steps) as [|n] eqn:Hn; [lia |].
  cbn [run_simulation_from]. rewrite step_nothing_pending.
  - assert (all_idle c = true) as ->; [| done].
    unfold all_idle. apply forallb_forall. intros e He.
    apply list_elem_of_In in He. rewrite Forall_forall in Hall.
    destruct (Hall e He) as [Hdir _]. by apply bool_decide_eq_true_2.
  - eapply Forall_impl; [done |]. by intros e (_ & ? & ?).
Qed.

Lemma run_simulation_nothing_to_do_witness :
  run_simulation (ElevatorController_init 3 10) 20
  = (ElevatorController_init 3 10, [AllIdle 0]).
Proof.
  apply (run_simulation_nothing_to_do (ElevatorController_init 3 10) 20);
    [repeat constructor | lia].
Defined.

Lemma run_simulation_from_runs_all (n : nat) (i0 : Z) c (i : nat) e :
  elevators c !! i = Some e →
  direction (step_elevator e).1 ≠ Direction.IDLE →
  run_simulation_from i0 n c = run (replicate n Step) c.
Proof.
  revert i0 c e. induction n as [|n IH]; intros i0 c e Hi Hdir; [done |].
  cbn [run_simulation_from replicate run apply_op].
  pose proof (step_lookup c i) as Hl.
  destruct (step c) as [c1 out1]. cbn [fst] in Hl.
  rewrite Hi in Hl. simpl in Hl.
  destruct (not_idle_not_settled c1 i _ Hl Hdir) as [_ ->].
  by rewrite (IH (i0 + 1) c1 _ Hl (step_elevator_not_idle _ Hdir)).
Qed.

(** When some car has, or gets by its next step, a direction other than
    [IDLE], [run_simulation] never stops early: it is [steps] calls of
    [step], with the same final controller and the same output. *)
Theorem run_simulation_runs_all c (steps : Z) (i : nat) e :
  elevators c !! i = Some e →
  direction (step_elevator e).1 ≠ Direction.IDLE →
  run_simulation c steps = run (replicate (Z.to_nat steps) Step) c.
Proof. apply run_simulation_from_runs_all. Qed.

Lemma run_simulation_runs_all_witness :
  run_simulation (hall_5_car_10 0) 20
  = run (replicate (Z.to_nat 20) Step) (hall_5_car_10 0).
Proof.
  apply (run_simulation_runs_all (hall_5_car_10 0) 20 0%nat
           (add_stop (add_stop (Elevator_init 1 10) 5) 10));
    [compute_done | vm_compute; discriminate].
Defined.

End simulation.

(** ** The door and the states between two calls *)

Section doors.
Implicit Types (c : ElevatorController) (e : Elevator) (out : list Event).

Lemma doors_closed_app out1 out2 :
  doors_closed out1 = true → doors_closed out2 = true →
  doors_closed (out1 ++ out2) = true.
Proof.
  intros H1 H2. remember (length out1) as n eqn:Hn.
  assert (length out1 ≤ n)%nat as Hle by lia. clear Hn.
  revert out1 H1 Hle. induction n as [|n IH]; intros out1 H1 Hle.
  - destruct out1; [done | simpl in Hle; lia].
  - destruct out1 as [|x out1]; [done |].
    simpl in Hle.
    destruct x; try (simpl in *; apply IH; [done | lia]); [| done].
    destruct out1 as [|y out1]; [done |].
    destruct y; try done. simpl in *.
    apply andb_true_iff in H1 as [-> H1]. simpl.
    apply IH; [done | lia].
Qed.

Lemma doors_closed_move e : doors_closed (move e).2 = true.
Proof.
  destruct (move_spec e); simpl; try done.
  by rewrite bool_decide_eq_true_2.
Qed.

Lemma doors_closed_step_elevator e : doors_closed (step_elevator e).2 = true.
Proof.
  unfold step_elevator. destruct (_ || _); [apply doors_closed_move | done].
Qed.

Lemma doors_closed_apply_op c op : doors_closed (apply_op c op).2 = true.
Proof.
  destruct op as [f d | id f |]; simpl.
  - unfold request_elevator.
    by destruct (select_elevator _ _ _) as [[i e] |].
  - destruct (destination_request c id f) as [[c1 out] | x] eqn:Hd;
      [| done].
    unfold destination_request in Hd.
    destruct (py_index _ _) as [[i e] | y]; [| done].
    by injection Hd as _ <-.
  - generalize (elevators c). intros l.
    induction l as [|e l IH]; [done |]. simpl.
    apply doors_closed_app; [apply doors_closed_step_elevator | done].
Qed.

Lemma car_run_state_ok ops e : state_ok e → state_ok (car_run ops e).1.
Proof.
  revert e. induction ops as [|op ops IH]; intros e Hok; simpl; [done |].
  assert (state_ok (apply_car_op e op).1) as H1.
  { destruct op; simpl; [by apply state_ok_add_stop | by apply state_ok_move]. }
  destruct (apply_car_op e op) as [e1 out1]. simpl in H1.
  specialize (IH e1 H1). by destruct (car_run ops e1).
Qed.

(** After any calls, on a car alone or on a controller, the state of a
    car is [IDLE] or [MOVING], never [DOOR_OPEN]; and in the output of
    any calls, from any state, every stop is directly followed by the
    closing of the door of the same car. *)
Theorem door_never_left_open :
  (∀ (ops : list CarOp) (id m : Z),
     let e := (car_run ops (Elevator_init id m)).1 in
     state e = ElevatorState.IDLE ∨ state e = ElevatorState.MOVING)
  ∧ (∀ (ops : list Op) (n m : Z),
       Forall (λ e, state e = ElevatorState.IDLE
                    ∨ state e = ElevatorState.MOVING)
              (elevators (run ops (ElevatorController_init n m)).1))
  ∧ (∀ (ops : list CarOp) e, doors_closed (car_run ops e).2 = true)
  ∧ (∀ (ops : list Op) c, doors_closed (run ops c).2 = true).
Proof.
  split; [| split; [| split]].
  - intros ops id m e.
    by destruct (car_run_state_ok ops _ (state_ok_init id m)) as [? _].
  - intros ops n m. eapply Forall_impl; [apply reached_car_ok |].
    by intros e [_ [? _]].
  - intros ops. induction ops as [|op ops IH]; intros e; [done |].
    simpl.
    assert (doors_closed (apply_car_op e op).2 = true) as H1
      by (destruct op; [done | apply doors_closed_move]).
    destruct (apply_car_op e op) as [e1 out1]. specialize (IH e1).
    destruct (car_run ops e1) as [e2 out2]. by apply doors_closed_app.
  - intros ops. induction ops as [|op ops IH]; intros c; [done |].
    simpl. pose proof (doors_closed_apply_op c op) as H1.
    destruct (apply_op c op) as [c1 out1]. specialize (IH c1).
    destruct (run ops c1) as [c2 out2]. by apply doors_closed_app.
Qed.

End doors.

(** ** The status display *)

Section display.
Implicit Types (c : ElevatorController) (e : Elevator).

Lemma strictly_sorted (l : list Z) :
  StronglySorted Z.le l → NoDup l → StronglySorted Z.lt l.
Proof.
  induction 1 as [|x l Hl IH Hx]; intros Hnd; [constructor |].
  apply NoDup_cons in Hnd as [Hnot Hnd].
  constructor; [by apply IH |].
  rewrite Forall_forall in Hx. apply Forall_forall. intros y Hy.
  specialize (Hx y Hy). assert (x ≠ y) by (by intros ->). lia.
Qed.

(** The floors a car shows as its stops are the floors of its two stop
    sets, in ascending order. *)
Lemma sorted_stops_listing e :
  StronglySorted Z.le (sorted_stops e)
  ∧ ∀ f, f ∈ sorted_stops e ↔ f ∈ up_stops e ∨ f ∈ down_stops e.
Proof.
  unfold sorted_stops. split.
  - apply StronglySorted_merge_sort; apply _.
  - intros f. rewrite merge_sort_Permutation.
    by rewrite elem_of_app, !elem_of_elements.
Qed.

(** In every state a controller reaches, the status of a car shows
    each of its pending floors once, in strictly ascending order, and
    shows no other floor; and [display_status] prints one text per car
    after its heading. *)
Theorem status_lists_pending_floors (ops : list Op) (n m : Z) :
  let c := (run ops (ElevatorController_init n m)).1 in
  Forall (λ e, StronglySorted Z.lt (sorted_stops e)
               ∧ (∀ f, f ∈ sorted_stops e
                       ↔ f ∈ up_stops e ∨ f ∈ down_stops e)
               ∧ length (sorted_stops e)
                 = (size (up_stops e) + size (down_stops e))%nat)
         (elevators c)
  ∧ length (display_status c) = S (Z.to_nat n).
Proof.
  intros c. split.
  - eapply Forall_impl; [apply reached_car_ok |].
    intros e [Hok _]. destruct (sorted_stops_listing e) as [Hs Hin].
    assert (NoDup (elements (up_stops e) ++ elements (down_stops e)))
      as Hnd.
    { apply NoDup_app. split; [apply NoDup_elements |].
      split; [| apply NoDup_elements].
      intros x Hu%elem_of_elements Hd%elem_of_elements.
      apply (not_elem_of_empty (C := gset Z) x).
      rewrite <- (stops_ok_disjoint e Hok). by apply elem_of_intersection. }
    split; [| split; [done |]].
    + apply strictly_sorted; [done |]. unfold sorted_stops.
      by rewrite merge_sort_Permutation.
    + unfold sorted_stops. rewrite merge_sort_Permutation.
      by rewrite length_app.
  - unfold display_status. cbn [length]. rewrite length_fmap.
    f_equal. apply reached_length.
Qed.

(** The text of a car on its way up, at floor 3, with floors 5 and 2
    pending. *)
Example Elevator_str_going_up_at_3 :
  Elevator_str going_up_at_3
  = "Elevator 1: Floor 3, UP, MOVING, Stops: [2, 5]"%string.
Proof. vm_compute. reflexivity. Qed.

End display.
